(** * The telegraf agent runtime (agent.go): a shallow embedding

    The Go source is [src/agent.go].  Every function of that file is
    rendered below as a Rocq function that returns, next to its Go result,
    the _trace_ of the effects it performed (sink calls, collector calls,
    log lines, sleeps, [go] statements).  Objects behind a Go interface
    (sinks, collectors) are deterministic state machines with a private
    state; what the environment decides (when the shutdown channel is
    closed, which case a [select] takes) is an explicit argument. *)

From Stdlib Require Import ZArith Lia.
From stdpp Require Import base option list gmap strings sorting.

Local Open Scope string_scope.
Local Open Scope list_scope.
Local Open Scope Z_scope.

(** ** Go base types *)

(** [error]: the message of a Go error value; a nil error is [None]. *)
Definition error := string.

(** [time.Duration]: a signed count of nanoseconds. *)
Definition Duration := Z.
Definition Millisecond : Duration := 1000000.
Definition Second : Duration := 1000 * Millisecond.

(** Go's [int] on the 64-bit targets: arithmetic wraps around. *)
Definition max_int : Z := 2 ^ 63 - 1.
Definition min_int : Z := - 2 ^ 63.
Definition int_wrap (z : Z) : Z := (z + 2 ^ 63) mod 2 ^ 64 - 2 ^ 63.
Definition int_add (x y : Z) : Z := int_wrap (x + y).

(** [client.Point] of the influxdb client library, as far as the agent
    looks at it: a name, tags, fields and a time stamp. *)
Record Point := mkPoint {
  pt_name : string;
  pt_tags : gmap string string;
  pt_fields : list (string * Z);
  pt_time : Z
}.

(** ** Collaborators that live outside agent.go *)

(** Modelled from the spec: [ConfiguredPlugin] (config.go is not among the
    sources).  "Configuration includes an optional per-plugin collection
    interval (zero means use global), a tag-whitelist (passTags) and a
    measurement-whitelist (drop)".  agent.go reads only [Interval]. *)
Record ConfiguredPlugin := mkConfiguredPlugin {
  cp_Drop : list string;
  cp_Pass : list string;
  cp_Interval : Duration
}.

(** Modelled from the spec: the accumulator (accumulator.go is not among
    the sources).  "Applies default tags and a name prefix"; it "exposes a
    debug flag" and has "prefix and default-tag setters called by the
    supervisor before handing the accumulator over".  A new accumulator
    has none of them set. *)
Record Accumulator := mkAccumulator {
  acc_plugin : ConfiguredPlugin;
  acc_debug : bool;
  acc_prefix : string;
  acc_defaultTags : gmap string string
}.

Definition NewAccumulator (plugin : ConfiguredPlugin) : Accumulator :=
  {| acc_plugin := plugin; acc_debug := false; acc_prefix := "";
     acc_defaultTags := ∅ |}.

Definition SetDebug (debug : bool) (acc : Accumulator) : Accumulator :=
  {| acc_plugin := acc_plugin acc; acc_debug := debug;
     acc_prefix := acc_prefix acc; acc_defaultTags := acc_defaultTags acc |}.

Definition SetPrefix (prefix : string) (acc : Accumulator) : Accumulator :=
  {| acc_plugin := acc_plugin acc; acc_debug := acc_debug acc;
     acc_prefix := prefix; acc_defaultTags := acc_defaultTags acc |}.

Definition SetDefaultTags (tags : gmap string string) (acc : Accumulator)
  : Accumulator :=
  {| acc_plugin := acc_plugin acc; acc_debug := acc_debug acc;
     acc_prefix := acc_prefix acc; acc_defaultTags := tags |}.

(** What a collector hands to the accumulator in one [Add] call. *)
Record sample := mkSample {
  s_measurement : string;
  s_fields : list (string * Z);
  s_tags : gmap string string;
  s_time : Z
}.

(** Modelled from the spec: the accumulator's [Add].  "Stamp each point
    with a name = <prefix><measurement>"; "Merge default tags (including
    host) into the point's tag set without overwriting collector-supplied
    keys".  The union of stdpp maps is left-biased: the collector's value
    wins.  The pass/drop filters and the time-stamp precision are left out. *)
Definition acc_Add (acc : Accumulator) (s : sample) : Point :=
  {| pt_name := acc_prefix acc +:+ s_measurement s;
     pt_tags := s_tags s ∪ acc_defaultTags acc;
     pt_fields := s_fields s;
     pt_time := s_time s |}.

(** [outputs.Output]: the sink interface.  The object is its current
    private state together with its methods; a method returns the Go
    result and the next state. *)
Record Output := mkOutput {
  out_state : Type;
  out_cur : out_state;
  out_Connect : out_state → option error * out_state;
  out_Write : list Point → out_state → option error * out_state;
  out_Close : out_state → option error * out_state
}.

Definition out_at (o : Output) (s : out_state o) : Output :=
  {| out_state := out_state o; out_cur := s; out_Connect := out_Connect o;
     out_Write := out_Write o; out_Close := out_Close o |}.

Definition Output_Connect (o : Output) : option error * Output :=
  let r := out_Connect o (out_cur o) in (r.1, out_at o r.2).

Definition Output_Write (o : Output) (points : list Point)
  : option error * Output :=
  let r := out_Write o points (out_cur o) in (r.1, out_at o r.2).

Definition Output_Close (o : Output) : option error * Output :=
  let r := out_Close o (out_cur o) in (r.1, out_at o r.2).

(** [plugins.Plugin]: the collector interface.  [Gather] publishes through
    the accumulator it is handed; the state machine yields the samples it
    adds and the error it returns.  [plugins.ServicePlugin] is the optional
    Start/Stop capability that [Run] finds by a type switch: [pl_Start] is
    there for a service collector; its [Stop] returns nothing and shows as
    an event only. *)
Record Plugin := mkPlugin {
  pl_state : Type;
  pl_cur : pl_state;
  pl_Gather : pl_state → list sample * option error * pl_state;
  pl_Start : option (pl_state → option error * pl_state)
}.

Definition pl_at (p : Plugin) (s : pl_state p) : Plugin :=
  {| pl_state := pl_state p; pl_cur := s; pl_Gather := pl_Gather p;
     pl_Start := pl_Start p |}.

(** The points published by one [Gather] through [acc], its error, and the
    collector afterwards. *)
Definition Plugin_Gather (p : Plugin) (acc : Accumulator)
  : list Point * option error * Plugin :=
  let r := pl_Gather p (pl_cur p) in
  (acc_Add acc <$> r.1.1, r.1.2, pl_at p r.2).

(** ** agent.go: the data *)

Record runningOutput := mkRunningOutput {
  ro_name : string;
  ro_output : Output
}.

Record runningPlugin := mkRunningPlugin {
  rp_name : string;
  rp_plugin : Plugin;
  rp_config : ConfiguredPlugin
}.

Record Agent := mkAgent {
  Interval : Duration;
  FlushInterval : Duration;
  FlushRetries : Z;
  UTC : bool;
  Precision : string;
  Debug : bool;
  Hostname : string;
  Tags : gmap string string;
  outputs : list runningOutput;
  plugins : list runningPlugin
}.

Definition set_Hostname (h : string) (a : Agent) : Agent :=
  {| Interval := Interval a; FlushInterval := FlushInterval a;
     FlushRetries := FlushRetries a; UTC := UTC a; Precision := Precision a;
     Debug := Debug a; Hostname := h; Tags := Tags a;
     outputs := outputs a; plugins := plugins a |}.

Definition set_Tags (t : gmap string string) (a : Agent) : Agent :=
  {| Interval := Interval a; FlushInterval := FlushInterval a;
     FlushRetries := FlushRetries a; UTC := UTC a; Precision := Precision a;
     Debug := Debug a; Hostname := Hostname a; Tags := t;
     outputs := outputs a; plugins := plugins a |}.

Definition set_outputs (os : list runningOutput) (a : Agent) : Agent :=
  {| Interval := Interval a; FlushInterval := FlushInterval a;
     FlushRetries := FlushRetries a; UTC := UTC a; Precision := Precision a;
     Debug := Debug a; Hostname := Hostname a; Tags := Tags a;
     outputs := os; plugins := plugins a |}.

Definition set_plugins (ps : list runningPlugin) (a : Agent) : Agent :=
  {| Interval := Interval a; FlushInterval := FlushInterval a;
     FlushRetries := FlushRetries a; UTC := UTC a; Precision := Precision a;
     Debug := Debug a; Hostname := Hostname a; Tags := Tags a;
     outputs := outputs a; plugins := ps |}.

(** Modelled from the spec: the [Config] value and the two registries
    (config.go and the plugin packages are not among the sources).  The
    methods agent.go calls are fields: the declared names, the functions
    that apply a configuration block to a fresh object (they can fail),
    and the name-to-constructor directories [outputs.Outputs] and
    [plugins.Plugins]. *)
Record Config := mkConfig {
  ApplyAgent : Agent → option error * Agent;
  OutputsDeclared : list string;
  PluginsDeclared : list string;
  ApplyOutput : string → Output → option error * Output;
  ApplyPlugin : string → Plugin → (error + ConfiguredPlugin) * Plugin;
  Outputs : string → option Output;
  Plugins : string → option Plugin
}.

(** Modelled from the spec: [sliceContains] (declared outside agent.go):
    is [name] one of [list]. *)
Definition sliceContains (name : string) (l : list string) : bool :=
  existsb (String.eqb name) l.

(** ** Effects *)

(** An argument of a [log.Printf] or [fmt.Printf] call.  [AElapsed] stands
    for a [time.Since] reading, which the model does not compute. *)
Inductive log_arg :=
| AStr (s : string)
| AInt (z : Z)
| ADur (d : Duration)
| AElapsed.

(** A goroutine started by a [go] statement. *)
Inductive task :=
| TaskFlusher
| TaskGatherSeparate (plugin : string)
| TaskWriteOutput (points : list Point) (output : string).

Inductive event :=
| EvLog (format : string) (args : list log_arg)
| EvLogln (args : list log_arg)
| EvPrint (format : string) (args : list log_arg)
| EvSleep (d : Duration)
| EvHostname (r : error + string)
| EvConnect (output : string) (r : option error)
| EvWrite (output : string) (points : list Point) (r : option error)
| EvClose (output : string) (r : option error)
| EvGather (plugin : string) (acc : Accumulator) (published : list Point)
           (r : option error)
| EvStart (plugin : string) (r : option error)
| EvStop (plugin : string)
| EvGo (t : task)
| EvWait
| EvCloseShutdown.

Definition trace := list event.

(** How a function that loops on a [select] ends: it returned, it panicked,
    or it is still waiting because the environment offered no further
    event. *)
Inductive outcome :=
| Returned (err : option error)
| Panicked (msg : string)
| Waiting.

(** The shutdown channel as one task sees it.  [None]: it is never closed.
    [Some k]: it is closed while the task is inside its [k]-th blocking
    operation (counted from 0; a sink call or a sleep).  A [select] that
    polls the channel after [now] completed blocking operations finds it
    closed when [k < now]. *)
Definition shutdown_signal := option nat.

Definition closed_after (sd : shutdown_signal) (now : nat) : bool :=
  match sd with
  | Some k => (k <? now)%nat
  | None => false
  end.

(** The case a blocking [select] of [gatherSeparate] or [Run] takes. *)
Inductive select_case := SelShutdown | SelTick.

(** The case the [select] of [flusher] takes. *)
Inductive flusher_case := FlShutdown | FlTick | FlPoint (pt : Point).

(** [time.NewTicker] panics on a non-positive interval. *)
Definition NewTicker_panics (d : Duration) : bool := d <=? 0.
Definition ticker_panic : string := "non-positive interval for NewTicker".

(** ** NewAgent *)

Definition default_Agent : Agent :=
  {| Interval := 10 * Second; FlushInterval := 10 * Second;
     FlushRetries := 2; UTC := true; Precision := "s"; Debug := false;
     Hostname := ""; Tags := ∅; outputs := []; plugins := [] |}.

(** [os_Hostname] is what [os.Hostname()] answers when it is asked. *)
Definition NewAgent (config : Config) (os_Hostname : error + string)
  : trace * (error + Agent) :=
  let agent := default_Agent in
  match ApplyAgent config agent with
  | (Some err, _) => ([], inl err)
  | (None, agent) =>
    let resolved :=
      if String.eqb (Hostname agent) "" then
        match os_Hostname with
        | inl err => ([EvHostname os_Hostname], inl err)
        | inr hostname => ([EvHostname os_Hostname], inr (set_Hostname hostname agent))
        end
      else ([], inr agent) in
    match resolved with
    | (tr, inl err) => (tr, inl err)
    | (tr, inr agent) =>
      (tr, inr (set_Tags (<["host" := Hostname agent]> (Tags agent)) agent))
    end
  end.

(** ** Connect and Close *)

Definition connect_retry_delay : Duration := 15 * Second.

Definition log_if (b : bool) (e : event) : trace := if b then [e] else [].

Fixpoint Connect_loop (debug : bool) (os : list runningOutput)
  : trace * option error * list runningOutput :=
  match os with
  | [] => ([], None, [])
  | o :: rest =>
    let attempting :=
      log_if debug (EvLog "Attempting connection to output: %s\n" [AStr (ro_name o)]) in
    let connected :=
      log_if debug (EvLog "Successfully connected to output: %s\n" [AStr (ro_name o)]) in
    let '(err, out1) := Output_Connect (ro_output o) in
    match err with
    | None =>
      let '(tr, res, rest') := Connect_loop debug rest in
      (attempting ++ [EvConnect (ro_name o) err] ++ connected ++ tr, res,
       mkRunningOutput (ro_name o) out1 :: rest')
    | Some _ =>
      let failed :=
        [EvConnect (ro_name o) err;
         EvLog "Failed to connect to output %s, retrying in 15s\n" [AStr (ro_name o)];
         EvSleep connect_retry_delay] in
      let '(err2, out2) := Output_Connect out1 in
      match err2 with
      | Some _ =>
        (attempting ++ failed ++ [EvConnect (ro_name o) err2], err2,
         mkRunningOutput (ro_name o) out2 :: rest)
      | None =>
        let '(tr, res, rest') := Connect_loop debug rest in
        (attempting ++ failed ++ [EvConnect (ro_name o) err2] ++ connected ++ tr,
         res, mkRunningOutput (ro_name o) out2 :: rest')
      end
    end
  end.

Definition Connect (a : Agent) : trace * option error * Agent :=
  let '(tr, err, os) := Connect_loop (Debug a) (outputs a) in
  (tr, err, set_outputs os a).

(** [err] is the variable of the Go function: each turn overwrites it. *)
Fixpoint Close_loop (os : list runningOutput) (err : option error)
  : trace * option error * list runningOutput :=
  match os with
  | [] => ([], err, [])
  | o :: rest =>
    let '(err, out1) := Output_Close (ro_output o) in
    let '(tr, res, rest') := Close_loop rest err in
    (EvClose (ro_name o) err :: tr, res, mkRunningOutput (ro_name o) out1 :: rest')
  end.

Definition Close (a : Agent) : trace * option error * Agent :=
  let '(tr, err, os) := Close_loop (outputs a) None in
  (tr, err, set_outputs os a).

(** ** LoadOutputs and LoadPlugins *)

(** The order of [sort.Strings]: Go compares strings byte by byte. *)
Definition string_le (s1 s2 : string) : Prop := String.leb s1 s2 = true.

#[global] Instance string_le_dec : RelDecision string_le.
Proof. intros s1 s2. unfold string_le. apply _. Defined.

(** [sort.Strings]: the result is the sorted arrangement of the slice,
    which is unique for strings, so the sorting algorithm does not show. *)
Definition sort_Strings (names : list string) : list string :=
  merge_sort string_le names.

Definition selected (name : string) (filters : list string) : bool :=
  sliceContains name filters || (length filters =? 0)%nat.

(** The loop of [LoadOutputs] over the declared names; [os] is [a.outputs]
    and [names] the local slice.  On an error the outputs appended so far
    stay in the agent. *)
Fixpoint LoadOutputs_loop (debug : bool) (filters : list string)
    (config : Config) (declared : list string)
    (os : list runningOutput) (names : list string)
  : trace * (error + list string) * list runningOutput :=
  match declared with
  | [] => ([], inr names, os)
  | name :: declared' =>
    match Outputs config name with
    | None => ([], inl ("Undefined but requested output: " +:+ name), os)
    | Some output =>
      if selected name filters then
        let enabled := log_if debug (EvLogln [AStr "Output Enabled: "; AStr name]) in
        match ApplyOutput config name output with
        | (Some err, _) => (enabled, inl err, os)
        | (None, output) =>
          let '(tr, res, os') :=
            LoadOutputs_loop debug filters config declared'
              (os ++ [mkRunningOutput name output]) (names ++ [name]) in
          (enabled ++ tr, res, os')
        end
      else LoadOutputs_loop debug filters config declared' os names
    end
  end.

Definition LoadOutputs (a : Agent) (filters : list string) (config : Config)
  : trace * (error + list string) * Agent :=
  let '(tr, res, os) :=
    LoadOutputs_loop (Debug a) filters config (OutputsDeclared config)
      (outputs a) [] in
  (tr, match res with inl e => inl e | inr names => inr (sort_Strings names) end,
   set_outputs os a).

Fixpoint LoadPlugins_loop (filters : list string)
    (config : Config) (declared : list string)
    (ps : list runningPlugin) (names : list string)
  : (error + list string) * list runningPlugin :=
  match declared with
  | [] => (inr names, ps)
  | name :: declared' =>
    match Plugins config name with
    | None => (inl ("Undefined but requested plugin: " +:+ name), ps)
    | Some plugin =>
      if selected name filters then
        match ApplyPlugin config name plugin with
        | (inl err, _) => (inl err, ps)
        | (inr pconfig, plugin) =>
          LoadPlugins_loop filters config declared'
            (ps ++ [mkRunningPlugin name plugin pconfig]) (names ++ [name])
        end
      else LoadPlugins_loop filters config declared' ps names
    end
  end.

Definition LoadPlugins (a : Agent) (filters : list string) (config : Config)
  : (error + list string) * Agent :=
  let '(res, ps) :=
    LoadPlugins_loop filters config (PluginsDeclared config) (plugins a) [] in
  (match res with inl e => inl e | inr names => inr (sort_Strings names) end,
   set_plugins ps a).

(** ** The gather scheduler *)

Definition log_gather_error (name : string) (err : option error) : trace :=
  match err with
  | Some e => [EvLog "Error in plugin [%s]: %s" [AStr name; AStr e]]
  | None => []
  end.

(** The accumulator built at the head of a gather task. *)
Definition gather_accumulator (a : Agent) (plugin : runningPlugin)
  : Accumulator :=
  SetDefaultTags (Tags a)
    (SetPrefix (rp_name plugin +:+ "_")
       (SetDebug (Debug a) (NewAccumulator (rp_config plugin)))).

(** The loop of [gatherParallel].  Each selected plugin gets a goroutine;
    [wg.Wait()] joins them all, so all their effects belong to the call.
    The goroutines touch different collectors; the trace lists them in the
    order in which they were started, one of their interleavings. *)
Fixpoint gatherParallel_loop (a : Agent) (ps : list runningPlugin)
    (counter : Z) : trace * Z * list runningPlugin :=
  match ps with
  | [] => ([], counter, [])
  | plugin :: rest =>
    if negb (cp_Interval (rp_config plugin) =? 0) then
      let '(tr, counter, rest') := gatherParallel_loop a rest counter in
      (tr, counter, plugin :: rest')
    else
      let acc := gather_accumulator a plugin in
      let '(published, err, p) := Plugin_Gather (rp_plugin plugin) acc in
      let '(tr, counter, rest') :=
        gatherParallel_loop a rest (int_add counter 1) in
      (EvGather (rp_name plugin) acc published err
         :: log_gather_error (rp_name plugin) err ++ tr,
       counter,
       mkRunningPlugin (rp_name plugin) p (rp_config plugin) :: rest')
  end.

Definition gatherParallel (a : Agent) : trace * option error * Agent :=
  let '(tr, counter, ps) := gatherParallel_loop a (plugins a) 0 in
  (tr ++ [EvLog "Gathered metrics, (%s interval), from %d plugins in %s\n"
            [ADur (Interval a); AInt counter; AElapsed]],
   None, set_plugins ps a).

(** One turn of the [for] of [gatherSeparate], up to its [select]. *)
Definition gatherSeparate_turn (a : Agent) (plugin : runningPlugin)
  : trace * option error * runningPlugin :=
  let outerr : option error := None in
  let acc := gather_accumulator a plugin in
  let '(published, err, p) := Plugin_Gather (rp_plugin plugin) acc in
  (EvGather (rp_name plugin) acc published err
     :: log_gather_error (rp_name plugin) err
     ++ [EvLog "Gathered metrics, (separate %s interval), from %s in %s\n"
           [ADur (cp_Interval (rp_config plugin)); AStr (rp_name plugin);
            AElapsed]],
   outerr,
   mkRunningPlugin (rp_name plugin) p (rp_config plugin)).

(** [script]: the cases the successive [select]s take. *)
Fixpoint gatherSeparate_loop (a : Agent) (plugin : runningPlugin)
    (script : list select_case) : trace * outcome * runningPlugin :=
  let '(tr, outerr, plugin) := gatherSeparate_turn a plugin in
  match outerr with
  | Some e => (tr, Returned (Some e), plugin)
  | None =>
    match script with
    | [] => (tr, Waiting, plugin)
    | SelShutdown :: _ => (tr, Returned None, plugin)
    | SelTick :: script' =>
      let '(tr', out, plugin) := gatherSeparate_loop a plugin script' in
      (tr ++ tr', out, plugin)
    end
  end.

Definition gatherSeparate (a : Agent) (plugin : runningPlugin)
    (script : list select_case) : trace * outcome * runningPlugin :=
  if NewTicker_panics (cp_Interval (rp_config plugin))
  then ([], Panicked ticker_panic, plugin)
  else gatherSeparate_loop a plugin script.

(** ** Test *)

Definition test_accumulator (plugin : runningPlugin) : Accumulator :=
  SetPrefix (rp_name plugin +:+ "_")
    (SetDebug true (NewAccumulator (rp_config plugin))).

Fixpoint Test_loop (ps : list runningPlugin)
  : trace * option error * list runningPlugin :=
  match ps with
  | [] => ([], None, [])
  | plugin :: rest =>
    let name := rp_name plugin in
    let acc := test_accumulator plugin in
    let head :=
      EvPrint "* Plugin: %s, Collection 1\n" [AStr name]
      :: (if negb (cp_Interval (rp_config plugin) =? 0)
          then [EvPrint "* Internal: %s\n" [ADur (cp_Interval (rp_config plugin))]]
          else []) in
    let '(published, err, p) := Plugin_Gather (rp_plugin plugin) acc in
    let first := head ++ [EvGather name acc published err] in
    match err with
    | Some _ => (first, err, mkRunningPlugin name p (rp_config plugin) :: rest)
    | None =>
      if String.eqb name "cpu" then
        let '(published2, err2, p2) := Plugin_Gather p acc in
        let second :=
          [EvSleep (500 * Millisecond);
           EvPrint "* Plugin: %s, Collection 2\n" [AStr name];
           EvGather name acc published2 err2] in
        match err2 with
        | Some _ =>
          (first ++ second, err2,
           mkRunningPlugin name p2 (rp_config plugin) :: rest)
        | None =>
          let '(tr, res, rest') := Test_loop rest in
          (first ++ second ++ tr, res,
           mkRunningPlugin name p2 (rp_config plugin) :: rest')
        end
      else
        let '(tr, res, rest') := Test_loop rest in
        (first ++ tr, res, mkRunningPlugin name p (rp_config plugin) :: rest')
    end
  end.

(** [defer close(shutdown)] runs when [Test] returns. *)
Definition Test (a : Agent) : trace * option error * Agent :=
  let '(tr, err, ps) := Test_loop (plugins a) in
  (EvGo TaskFlusher :: tr ++ [EvCloseShutdown], err, set_plugins ps a).

(** ** The output writer and the flusher *)

(** The [for] of [writeOutput].  [now] counts the blocking operations
    (Write calls and sleeps) the task has completed, [retry] is the Go
    variable.  The loop is not structural: [fuel] bounds the number of
    turns, and [None] means that the fuel ran out. *)
Fixpoint writeOutput_loop (fuel : nat) (a : Agent) (points : list Point)
    (ro : runningOutput) (sd : shutdown_signal) (now : nat) (retry : Z)
  : option (trace * runningOutput) :=
  match fuel with
  | O => None
  | S fuel =>
    let retries := FlushRetries a in
    let '(err, out) := Output_Write (ro_output ro) points in
    let ro := mkRunningOutput (ro_name ro) out in
    let now := S now in
    let wrote := EvWrite (ro_name ro) points err in
    if closed_after sd now then Some ([wrote], ro)
    else
      match err with
      | None =>
        Some ([wrote;
               EvLog "Flushed %d metrics to output %s in %s\n"
                 [AInt (Z.of_nat (length points)); AStr (ro_name ro); AElapsed]],
              ro)
      | Some e =>
        if retries <=? retry then
          Some ([wrote;
                 EvLog "FATAL: Write to output [%s] failed %d times, dropping %d metrics\n"
                   [AStr (ro_name ro); AInt (int_add retries 1);
                    AInt (Z.of_nat (length points))]],
                ro)
        else
          '(tr, ro') ← writeOutput_loop fuel a points ro sd (S now)
                         (int_add retry 1);
          Some (wrote
                  :: EvLog "Error in output [%s]: %s, retrying in %s"
                       [AStr (ro_name ro); AStr e; ADur (FlushInterval a)]
                  :: EvSleep (FlushInterval a) :: tr,
                ro')
      end
  end.

Definition writeOutput (fuel : nat) (a : Agent) (points : list Point)
    (ro : runningOutput) (sd : shutdown_signal)
  : option (trace * runningOutput) :=
  writeOutput_loop fuel a points ro sd 0 0.

(** [flush] only starts goroutines. *)
Definition flush (a : Agent) (points : list Point) : trace :=
  if (length points =? 0)%nat then []
  else (λ o, EvGo (TaskWriteOutput points (ro_name o))) <$> outputs a.

Fixpoint flusher_loop (a : Agent) (points : list Point)
    (script : list flusher_case) : trace * outcome :=
  match script with
  | [] => ([], Waiting)
  | FlShutdown :: _ =>
    (EvLogln [AStr "Hang on, flushing any cached points before shutdown"]
       :: flush a points,
     Returned None)
  | FlTick :: script' =>
    let '(tr, out) := flusher_loop a [] script' in
    (flush a points ++ tr, out)
  | FlPoint pt :: script' => flusher_loop a (points ++ [pt]) script'
  end.

Definition flusher (a : Agent) (script : list flusher_case)
  : trace * outcome :=
  if NewTicker_panics (FlushInterval a)
  then ([EvSleep (100 * Millisecond)], Panicked ticker_panic)
  else
    let '(tr, out) := flusher_loop a [] script in
    (EvSleep (100 * Millisecond) :: tr, out).

(** ** Run *)

(** The loop of [Run] over the plugins: services are started, and every
    plugin with an interval of its own gets its [gatherSeparate] goroutine.
    [deferred] collects the [defer p.Stop()] calls, the latest first. *)
Fixpoint Run_start (ps : list runningPlugin) (deferred : trace)
  : trace * option error * trace * list runningPlugin :=
  match ps with
  | [] => ([], None, deferred, [])
  | plugin :: rest =>
    let name := rp_name plugin in
    let spawn :=
      if negb (cp_Interval (rp_config plugin) =? 0)
      then [EvGo (TaskGatherSeparate name)] else [] in
    match pl_Start (rp_plugin plugin) with
    | Some start =>
      let r := start (pl_cur (rp_plugin plugin)) in
      let plugin :=
        mkRunningPlugin name (pl_at (rp_plugin plugin) r.2) (rp_config plugin) in
      match r.1 with
      | Some e =>
        ([EvStart name (Some e);
          EvLog "Service for plugin %s failed to start, exiting\n%s\n"
            [AStr name; AStr e]],
         Some e, deferred, plugin :: rest)
      | None =>
        let '(tr, err, deferred, rest') :=
          Run_start rest (EvStop name :: deferred) in
        (EvStart name None :: spawn ++ tr, err, deferred, plugin :: rest')
      end
    | None =>
      let '(tr, err, deferred, rest') := Run_start rest deferred in
      (spawn ++ tr, err, deferred, plugin :: rest')
    end
  end.

(** The last [for] of [Run]; [script] lists the cases of its [select]s. *)
Fixpoint Run_loop (a : Agent) (script : list select_case)
  : trace * outcome * Agent :=
  let '(tr, err, a) := gatherParallel a in
  let tr := tr ++ match err with Some e => [EvLog e []] | None => [] end in
  match script with
  | [] => (tr, Waiting, a)
  | SelShutdown :: _ => (tr, Returned None, a)
  | SelTick :: script' =>
    let '(tr', out, a) := Run_loop a script' in
    (tr ++ tr', out, a)
  end.

(** [Run]: the deferred calls run when the function returns or panics,
    [wg.Wait()] (deferred last) before the [Stop]s. *)
Definition Run (a : Agent) (script : list select_case)
  : trace * outcome * Agent :=
  let '(tr0, err, deferred, ps) := Run_start (plugins a) [] in
  let a := set_plugins ps a in
  match err with
  | Some e => (EvGo TaskFlusher :: tr0 ++ deferred, Returned (Some e), a)
  | None =>
    if NewTicker_panics (Interval a)
    then (EvGo TaskFlusher :: tr0 ++ EvWait :: deferred,
          Panicked ticker_panic, a)
    else
      let '(tr, out, a) := Run_loop a script in
      (EvGo TaskFlusher :: tr0 ++ tr
         ++ match out with Waiting => [] | _ => EvWait :: deferred end,
       out, a)
  end.

(** ** Observations on traces *)

Definition is_write (e : event) : bool :=
  match e with EvWrite _ _ _ => true | _ => false end.

Definition is_sleep (e : event) : bool :=
  match e with EvSleep _ => true | _ => false end.

(** The sink calls and sleeps of a writer: its blocking operations. *)
Definition is_blocking (e : event) : bool := is_write e || is_sleep e.

(** The number of [sink.Write] attempts in a trace. *)
Definition attempts (tr : trace) : nat := length (List.filter is_write tr).

Definition blocking_ops (tr : trace) : nat :=
  length (List.filter is_blocking tr).

(** What a writer may do: write, log and sleep.  It starts no task and
    puts nothing back on the point channel. *)
Definition writer_event (e : event) : bool :=
  match e with
  | EvWrite _ _ _ | EvLog _ _ | EvSleep _ => true
  | _ => false
  end.

(** Every Write attempt recorded in the trace failed. *)
Definition all_writes_failed (tr : trace) : Prop :=
  ∀ name points r, In (EvWrite name points r) tr → r ≠ None.

(** The FATAL line of [writeOutput]. *)
Definition fatal_line (name : string) (count : Z) (dropped : nat) : event :=
  EvLog "FATAL: Write to output [%s] failed %d times, dropping %d metrics\n"
    [AStr name; AInt count; AInt (Z.of_nat dropped)].

(** Fuel that suffices for [writeOutput]: one turn per attempt. *)
Definition writeOutput_fuel (a : Agent) : nat :=
  S (Z.to_nat (FlushRetries a)).

(** ** Sample objects *)

(** A sink whose every call fails with [msg]. *)
Definition failing_output (msg : error) : Output :=
  {| out_state := unit; out_cur := tt;
     out_Connect := λ s, (Some msg, s);
     out_Write := λ _ s, (Some msg, s);
     out_Close := λ s, (Some msg, s) |}.

(** A sink whose every call succeeds. *)
Definition steady_output : Output :=
  {| out_state := unit; out_cur := tt;
     out_Connect := λ s, (None, s);
     out_Write := λ _ s, (None, s);
     out_Close := λ s, (None, s) |}.

(** A sink whose first [n] calls fail and the later ones succeed; the
    state counts the failures still to come. *)
Definition flaky_step (msg : error) (s : nat) : option error * nat :=
  match s with
  | O => (None, O)
  | S s' => (Some msg, s')
  end.

Definition flaky_output (msg : error) (n : nat) : Output :=
  {| out_state := nat; out_cur := n;
     out_Connect := flaky_step msg;
     out_Write := λ _, flaky_step msg;
     out_Close := flaky_step msg |}.

(** A collector that adds [samples] on every pass and returns [err]. *)
Definition fixed_plugin (samples : list sample) (err : option error) : Plugin :=
  {| pl_state := unit; pl_cur := tt;
     pl_Gather := λ s, (samples, err, s);
     pl_Start := None |}.

Definition a_point : Point :=
  {| pt_name := "mem_free"; pt_tags := ∅; pt_fields := [("value", 42)];
     pt_time := 0 |}.

Definition a_sample : sample :=
  {| s_measurement := "free"; s_fields := [("value", 42)]; s_tags := ∅;
     s_time := 0 |}.

Definition with_retries (n : Z) : Agent :=
  {| Interval := 10 * Second; FlushInterval := 10 * Second;
     FlushRetries := n; UTC := true; Precision := "s"; Debug := false;
     Hostname := "box"; Tags := {["host" := "box"]};
     outputs := []; plugins := [] |}.

Definition influx_failing : runningOutput :=
  mkRunningOutput "influx" (failing_output "boom").

(** ** Observations on Connect and Close *)

Definition is_log (e : event) : bool :=
  match e with
  | EvLog _ _ | EvLogln _ | EvPrint _ _ => true
  | _ => false
  end.

(** The effects of a trace other than its log lines. *)
Definition io (tr : trace) : trace := List.filter (λ e, negb (is_log e)) tr.

(** What the sink answers to a first [Connect], and to a second one. *)
Definition first_Connect (o : runningOutput) : option error :=
  (Output_Connect (ro_output o)).1.

Definition second_Connect (o : runningOutput) : option error :=
  (Output_Connect (Output_Connect (ro_output o)).2).1.

Definition connects_in_two (o : runningOutput) : Prop :=
  first_Connect o = None ∨ second_Connect o = None.

(** The connection attempts the spec prescribes for one sink: one attempt,
    and after a failure a 15 second delay and a single retry. *)
Definition connect_attempts (o : runningOutput) : trace :=
  match first_Connect o with
  | None => [EvConnect (ro_name o) None]
  | Some e =>
    [EvConnect (ro_name o) (Some e); EvSleep (15 * Second);
     EvConnect (ro_name o) (second_Connect o)]
  end.

(** What the sink answers to [Close]. *)
Definition Close_result (o : runningOutput) : option error :=
  (Output_Close (ro_output o)).1.

Definition two_sinks : Agent :=
  set_outputs [mkRunningOutput "first" (failing_output "cannot close");
               mkRunningOutput "second" steady_output] (with_retries 2).

(** ** Observations on the scheduler *)

(** The collectors whose [Gather] a trace records, in order. *)
Definition gathered (tr : trace) : list string :=
  omap (λ e, match e with EvGather name _ _ _ => Some name | _ => None end) tr.

(** The accumulators handed to collectors. *)
Definition handed (tr : trace) : list Accumulator :=
  omap (λ e, match e with EvGather _ acc _ _ => Some acc | _ => None end) tr.

(** The points published by the collectors. *)
Definition published (tr : trace) : list Point :=
  concat (omap (λ e, match e with
                     | EvGather _ _ points _ => Some points
                     | _ => None
                     end) tr).

(** The plugins for which a [gatherSeparate] task was started. *)
Definition separate_started (tr : trace) : list string :=
  omap (λ e, match e with
             | EvGo (TaskGatherSeparate name) => Some name
             | _ => None
             end) tr.

Definition zero_interval (p : runningPlugin) : bool :=
  cp_Interval (rp_config p) =? 0.

(** The names of the plugins without an interval of their own, and of
    those with one, in the order of the plugin list. *)
Definition parallel_names (ps : list runningPlugin) : list string :=
  rp_name <$> List.filter zero_interval ps.

Definition separate_names (ps : list runningPlugin) : list string :=
  rp_name <$> List.filter (λ p, negb (zero_interval p)) ps.

(** The ticks a [select] loop takes before shutdown (or before the script
    ends). *)
Fixpoint leading_ticks (script : list select_case) : nat :=
  match script with
  | SelTick :: script' => S (leading_ticks script')
  | _ => O
  end.

Definition has_shutdown (script : list select_case) : bool :=
  existsb (λ c, match c with SelShutdown => true | SelTick => false end) script.

Definition gather_error_line (name : string) (e : error) : event :=
  EvLog "Error in plugin [%s]: %s" [AStr name; AStr e].

(** A service collector can be told to start. *)
Definition starts (p : runningPlugin) : Prop :=
  match pl_Start (rp_plugin p) with
  | Some start => (start (pl_cur (rp_plugin p))).1 = None
  | None => True
  end.

Definition plugin_every (name : string) (interval : Duration)
    (err : option error) : runningPlugin :=
  mkRunningPlugin name (fixed_plugin [a_sample] err)
    (mkConfiguredPlugin [] [] interval).

(** An agent with the global interval of 10 s, a plugin on that interval,
    a failing plugin on it, and a plugin with its own interval of 10 s. *)
Definition three_plugins : Agent :=
  set_plugins [plugin_every "mem" 0 None;
               plugin_every "disk" 0 (Some "no disk");
               plugin_every "net" (10 * Second) None] (with_retries 2).

(** An agent with the [host] tag and one collector that publishes one
    untagged sample per pass. *)
Definition one_plugin : Agent :=
  set_plugins [plugin_every "mem" 0 None] (with_retries 2).

(** The writer tasks a trace starts: batch and sink of each. *)
Definition writers_started (tr : trace) : list (list Point * string) :=
  omap (λ e, match e with
             | EvGo (TaskWriteOutput points output) => Some (points, output)
             | _ => None
             end) tr.

(** ** Sample configurations *)

(** A configuration with an empty agent table and nothing declared. *)
Definition empty_config : Config :=
  {| ApplyAgent := λ a, (None, a);
     OutputsDeclared := []; PluginsDeclared := [];
     ApplyOutput := λ _ o, (None, o);
     ApplyPlugin := λ _ p, (inr (mkConfiguredPlugin [] [] 0), p);
     Outputs := λ _, None; Plugins := λ _, None |}.

(** A configuration whose agent table sets the tag [host] and leaves the
    hostname alone. *)
Definition host_tag_config : Config :=
  {| ApplyAgent := λ a, (None, set_Tags (<["host" := "custom"]> (Tags a)) a);
     OutputsDeclared := []; PluginsDeclared := [];
     ApplyOutput := λ _ o, (None, o);
     ApplyPlugin := λ _ p, (inr (mkConfiguredPlugin [] [] 0), p);
     Outputs := λ _, None; Plugins := λ _, None |}.

(** ** Observations on loading *)

(** The declared names that pass the filter, in the order of declaration:
    those that match a filter, or all of them when there is no filter. *)
Definition wanted (filters declared : list string) : list string :=
  List.filter (λ name, selected name filters) declared.

(** A declared collector loads: it is registered and, when it is selected,
    its configuration block applies. *)
Definition plugin_loads (config : Config) (filters : list string)
    (name : string) : Prop :=
  match Plugins config name with
  | Some plugin =>
    selected name filters = true →
    ∃ pconfig, (ApplyPlugin config name plugin).1 = inr pconfig
  | None => False
  end.

(** The same for a declared sink. *)
Definition output_loads (config : Config) (filters : list string)
    (name : string) : Prop :=
  match Outputs config name with
  | Some output =>
    selected name filters = true → (ApplyOutput config name output).1 = None
  | None => False
  end.

(** A configuration that declares the sinks [outs] and the collectors
    [plugs], with registries that know the names [known]. *)
Definition declaring (outs plugs known : list string) : Config :=
  {| ApplyAgent := λ a, (None, a);
     OutputsDeclared := outs; PluginsDeclared := plugs;
     ApplyOutput := λ _ o, (None, o);
     ApplyPlugin := λ _ p, (inr (mkConfiguredPlugin [] [] 0), p);
     Outputs := λ name,
       if sliceContains name known then Some steady_output else None;
     Plugins := λ name,
       if sliceContains name known
       then Some (fixed_plugin [a_sample] None) else None |}.

(** A configuration that declares two collectors no registry knows. *)
Definition two_unknown : Config := declaring [] ["ghost"; "phantom"] [].

(** ** Further observations on the writer *)

(** The sleeps of a trace, in order. *)
Definition sleeps (tr : trace) : trace := List.filter is_sleep tr.

(** The line a writer logs after a successful Write. *)
Definition flushed_line (name : string) (count : nat) : event :=
  EvLog "Flushed %d metrics to output %s in %s\n"
    [AInt (Z.of_nat count); AStr name; AElapsed].

Definition flaky_sink (n : nat) : runningOutput :=
  mkRunningOutput "influx" (flaky_output "boom" n).

(** The sink after [n] Write calls with the same batch, and what it
    answers to the next one. *)
Fixpoint after_writes (o : Output) (points : list Point) (n : nat) : Output :=
  match n with
  | O => o
  | S n => after_writes (Output_Write o points).2 points n
  end.

Definition write_result (o : Output) (points : list Point) (n : nat)
  : option error :=
  (Output_Write (after_writes o points n) points).1.

(** ** Observations on the flusher *)

(** The points the flusher takes from the channel before it sees
    shutdown. *)
Fixpoint received (script : list flusher_case) : list Point :=
  match script with
  | [] => []
  | FlShutdown :: _ => []
  | FlTick :: script' => received script'
  | FlPoint pt :: script' => pt :: received script'
  end.

(** The points still in the buffer when the script ends before shutdown. *)
Fixpoint pending (points : list Point) (script : list flusher_case)
  : list Point :=
  match script with
  | [] => points
  | FlShutdown :: _ => []
  | FlTick :: script' => pending [] script'
  | FlPoint pt :: script' => pending (points ++ [pt]) script'
  end.

Definition flusher_shutdown (script : list flusher_case) : bool :=
  existsb (λ c, match c with FlShutdown => true | _ => false end) script.

(** The batches handed to writers of the sink called [name], in order. *)
Definition batches_for (name : string) (tr : trace) : list (list Point) :=
  omap (λ e, match e with
             | EvGo (TaskWriteOutput points output) =>
               if String.eqb output name then Some points else None
             | _ => None
             end) tr.

(** ** Further observations on Connect and on loading *)

Definition is_connect (e : event) : bool :=
  match e with EvConnect _ _ => true | _ => false end.

(** The first [Connect] of the sink fails. *)
Definition needs_retry (o : runningOutput) : bool :=
  match first_Connect o with Some _ => true | None => false end.

(** A configuration that declares a known and an unknown collector. *)
Definition known_then_unknown : Config :=
  declaring [] ["mem"; "ghost"; "cpu"] ["mem"; "cpu"].

(** ** Further observations on the scheduler, Test and Run *)

(** The accumulators handed to collectors, each with the collector's
    name. *)
Definition handed_to (tr : trace) : list (string * Accumulator) :=
  omap (λ e, match e with
             | EvGather name acc _ _ => Some (name, acc)
             | _ => None
             end) tr.

(** The [Gather] calls Test mode makes on a plugin when none fails. *)
Definition test_passes (p : runningPlugin) : list string :=
  if String.eqb (rp_name p) "cpu" then [rp_name p; rp_name p]
  else [rp_name p].

(** The services a trace starts with success, and those it stops. *)
Definition started (tr : trace) : list string :=
  omap (λ e, match e with EvStart name None => Some name | _ => None end) tr.

Definition stopped (tr : trace) : list string :=
  omap (λ e, match e with EvStop name => Some name | _ => None end) tr.

(** A trace of gathering: [Gather] calls and log lines only. *)
Definition gather_event (e : event) : bool :=
  match e with
  | EvGather _ _ _ _ | EvLog _ _ => true
  | _ => false
  end.

(** The line [gatherParallel] logs at the end of a tick. *)
Definition gathered_line (a : Agent) (count : Z) : event :=
  EvLog "Gathered metrics, (%s interval), from %d plugins in %s\n"
    [ADur (Interval a); AInt count; AElapsed].

(** A service collector whose [Start] answers [err]. *)
Definition service_plugin (name : string) (err : option error) : runningPlugin :=
  mkRunningPlugin name
    {| pl_state := unit; pl_cur := tt;
       pl_Gather := λ s, ([a_sample], None, s);
       pl_Start := Some (λ s, (err, s)) |}
    (mkConfiguredPlugin [] [] 0).

(** Two services that start and a third one that does not. *)
Definition three_services : Agent :=
  set_plugins [service_plugin "statsd" None; service_plugin "kafka" None;
               service_plugin "mqtt" (Some "port in use")] (with_retries 2).

Definition two_services : Agent :=
  set_plugins [service_plugin "statsd" None; service_plugin "kafka" None]
    (with_retries 2).

(** An agent with the collector [cpu] between two others. *)
Definition with_cpu : Agent :=
  set_plugins [plugin_every "mem" 0 None; plugin_every "cpu" 0 None;
               plugin_every "net" (10 * Second) None] (with_retries 2).

(** An agent whose global interval is zero. *)
Definition zero_interval_agent : Agent :=
  {| Interval := 0; FlushInterval := 10 * Second;
     FlushRetries := 2; UTC := true; Precision := "s"; Debug := false;
     Hostname := "box"; Tags := {["host" := "box"]};
     outputs := [];
     plugins := [plugin_every "mem" 0 None;
                 plugin_every "net" (10 * Second) None] |}.

(** A configuration whose block for [cpu] does not apply; it declares
    [cpu] between a collector that loads and one that no registry knows. *)
Definition bad_block : Config :=
  {| ApplyAgent := λ a, (None, a);
     OutputsDeclared := []; PluginsDeclared := ["mem"; "cpu"; "ghost"];
     ApplyOutput := λ _ o, (None, o);
     ApplyPlugin := λ name p,
       if String.eqb name "cpu" then (inl "cpu: bad block", p)
       else (inr (mkConfiguredPlugin [] [] 0), p);
     Outputs := λ _, None;
     Plugins := λ name,
       if sliceContains name ["mem"; "cpu"]
       then Some (fixed_plugin [a_sample] None) else None |}.

(** A plugin with its own interval, listed before a service that does not
    start. *)
Definition gatherer_then_failing : Agent :=
  set_plugins [plugin_every "net" (10 * Second) None;
               service_plugin "mqtt" (Some "port in use")] (with_retries 2).

(** * Properties *)

(** ** Machine integers *)

Lemma int_add_small (x y : Z) :
  min_int ≤ x + y ≤ max_int → int_add x y = x + y.
Proof.
  unfold int_add, int_wrap, min_int, max_int. intros H.
  rewrite Z.mod_small; lia.
Qed.

(** ** Counting in traces *)

Lemma attempts_app (t1 t2 : trace) :
  attempts (t1 ++ t2) = (attempts t1 + attempts t2)%nat.
Proof. unfold attempts. by rewrite List.filter_app, length_app. Qed.

Lemma blocking_ops_app (t1 t2 : trace) :
  blocking_ops (t1 ++ t2) = (blocking_ops t1 + blocking_ops t2)%nat.
Proof. unfold blocking_ops. by rewrite List.filter_app, length_app. Qed.

Lemma blocking_ops_cons (e : event) (tr : trace) :
  blocking_ops (e :: tr)
  = ((if is_blocking e then 1 else 0) + blocking_ops tr)%nat.
Proof. unfold blocking_ops. cbn. by destruct (is_blocking e). Qed.

(** ** The output writer *)

(** The four ways one turn of the loop of [writeOutput] can go. *)
Lemma writeOutput_loop_turn fuel a points ro sd now retry tr ro' :
  writeOutput_loop (S fuel) a points ro sd now retry = Some (tr, ro') →
  let r := Output_Write (ro_output ro) points in
  let ro1 := mkRunningOutput (ro_name ro) r.2 in
  let wrote := EvWrite (ro_name ro) points r.1 in
  (closed_after sd (S now) = true ∧ tr = [wrote] ∧ ro' = ro1)
  ∨ (closed_after sd (S now) = false ∧ r.1 = None ∧ ro' = ro1 ∧
     tr = [wrote;
           EvLog "Flushed %d metrics to output %s in %s\n"
             [AInt (Z.of_nat (length points)); AStr (ro_name ro); AElapsed]])
  ∨ (closed_after sd (S now) = false ∧ r.1 ≠ None ∧ ro' = ro1 ∧
     FlushRetries a ≤ retry ∧
     tr = [wrote;
           fatal_line (ro_name ro) (int_add (FlushRetries a) 1) (length points)])
  ∨ (closed_after sd (S now) = false ∧ retry < FlushRetries a ∧
     ∃ e tr',
       r.1 = Some e ∧
       writeOutput_loop fuel a points ro1 sd (S (S now)) (int_add retry 1)
         = Some (tr', ro') ∧
       tr = wrote
              :: EvLog "Error in output [%s]: %s, retrying in %s"
                   [AStr (ro_name ro); AStr e; ADur (FlushInterval a)]
              :: EvSleep (FlushInterval a) :: tr').
Proof.
  intros H. cbn [writeOutput_loop] in H. cbv zeta.
  destruct (Output_Write (ro_output ro) points) as [err out] eqn:Hw.
  cbn [fst snd ro_name] in *.
  destruct (closed_after sd (S now)) eqn:Hc.
  { left. by simplify_eq. }
  right. destruct err as [e|].
  - right. destruct (Z.leb_spec (FlushRetries a) retry) as [Hle|Hlt].
    + left. by simplify_eq.
    + right. split; [done|]. split; [done|].
      destruct (writeOutput_loop fuel _ _ _ _ _ _) as [[tr' ro'']|] eqn:Hrec;
        simplify_eq/=.
      by exists e, tr'.
  - left. by simplify_eq.
Qed.

Lemma writeOutput_loop_name fuel a points ro sd now retry tr ro' :
  writeOutput_loop fuel a points ro sd now retry = Some (tr, ro') →
  ro_name ro' = ro_name ro.
Proof.
  revert ro now retry tr.
  induction fuel as [|fuel IH]; intros ro now retry tr H; [done|].
  apply writeOutput_loop_turn in H.
  destruct H as [(_ & _ & ->)|[(_ & _ & -> & _)|[(_ & _ & -> & _)|H]]];
    try done.
  destruct H as (_ & _ & e & tr' & _ & Hrec & _).
  by apply IH in Hrec.
Qed.

(** More fuel does not change the result. *)
Lemma writeOutput_loop_fuel_mono fuel fuel' a points ro sd now retry res :
  writeOutput_loop fuel a points ro sd now retry = Some res →
  (fuel ≤ fuel')%nat →
  writeOutput_loop fuel' a points ro sd now retry = Some res.
Proof.
  revert fuel' ro now retry res.
  induction fuel as [|fuel IH]; intros fuel' ro now retry res H Hle; [done|].
  destruct fuel' as [|fuel']; [lia|].
  cbn [writeOutput_loop] in *.
  destruct (Output_Write (ro_output ro) points) as [err out].
  destruct (closed_after sd (S now)); [done|].
  destruct err as [e|]; [|done].
  destruct (FlushRetries a <=? retry); [done|].
  destruct (writeOutput_loop fuel _ _ _ _ _ _) as [res'|] eqn:Hrec; [|done].
  by rewrite (IH fuel' _ _ _ _ Hrec) by lia.
Qed.

(** The loop returns as soon as the fuel exceeds the retries left. *)
Lemma writeOutput_loop_returns fuel a points ro sd now retry :
  0 ≤ retry → FlushRetries a ≤ max_int →
  Z.max 0 (FlushRetries a - retry) < Z.of_nat fuel →
  is_Some (writeOutput_loop fuel a points ro sd now retry).
Proof.
  revert ro now retry.
  induction fuel as [|fuel IH]; intros ro now retry H0 Hmax Hfuel; [lia|].
  cbn [writeOutput_loop].
  destruct (Output_Write (ro_output ro) points) as [err out].
  destruct (closed_after sd (S now)); [done|].
  destruct err as [e|]; [|done].
  destruct (Z.leb_spec (FlushRetries a) retry) as [Hle|Hlt]; [done|].
  assert (int_add retry 1 = retry + 1) as ->
    by (apply int_add_small; unfold min_int, max_int in *; lia).
  destruct (IH (mkRunningOutput (ro_name ro) out) (S (S now)) (retry + 1))
    as [[tr' ro''] ->]; [lia..|done].
Qed.

(** At most one attempt per retry left, plus the first. *)
Lemma writeOutput_loop_attempts_le fuel a points ro sd now retry tr ro' :
  writeOutput_loop fuel a points ro sd now retry = Some (tr, ro') →
  0 ≤ retry → FlushRetries a ≤ max_int →
  Z.of_nat (attempts tr) ≤ Z.max 0 (FlushRetries a - retry) + 1.
Proof.
  revert ro now retry tr.
  induction fuel as [|fuel IH]; intros ro now retry tr H H0 Hmax; [done|].
  apply writeOutput_loop_turn in H.
  destruct H as [(_ & -> & _)|[(_ & _ & _ & ->)|[(_ & _ & _ & _ & ->)|H]]];
    try (cbn; lia).
  destruct H as (_ & Hlt & e & tr' & _ & Hrec & ->).
  rewrite int_add_small in Hrec by (unfold min_int, max_int in *; lia).
  apply IH in Hrec; [|lia..].
  change (Z.of_nat (S (attempts tr')) ≤ Z.max 0 (FlushRetries a - retry) + 1).
  lia.
Qed.

(** When no attempt succeeds and shutdown never comes, every retry is used
    and the FATAL line closes the trace. *)
Lemma writeOutput_loop_all_failed fuel a points ro now retry tr ro' :
  writeOutput_loop fuel a points ro None now retry = Some (tr, ro') →
  all_writes_failed tr →
  0 ≤ retry → FlushRetries a ≤ max_int →
  Z.of_nat (attempts tr) = Z.max 0 (FlushRetries a - retry) + 1
  ∧ last tr = Some (fatal_line (ro_name ro) (int_add (FlushRetries a) 1)
                      (length points)).
Proof.
  revert ro now retry tr.
  induction fuel as [|fuel IH]; intros ro now retry tr H Hfail H0 Hmax; [done|].
  apply writeOutput_loop_turn in H.
  destruct H as [(? & _)|[(_ & Hok & _ & ->)|[(_ & _ & _ & Hle & ->)|H]]].
  - done.
  - exfalso. eapply Hfail; [left; reflexivity|done].
  - split; [cbn; lia|done].
  - destruct H as (_ & Hlt & e & tr' & _ & Hrec & ->).
    rewrite int_add_small in Hrec by (unfold min_int, max_int in *; lia).
    apply IH in Hrec; [|intros n p r Hin; eapply Hfail; do 3 right; exact Hin|lia..].
    destruct Hrec as [Hn Hlast]. cbn [ro_name] in Hlast. split.
    + change (Z.of_nat (S (attempts tr')) = Z.max 0 (FlushRetries a - retry) + 1).
      lia.
    + destruct tr' as [|e1 tr']; [done|]. exact Hlast.
Qed.

(** A successful attempt is the last one. *)
Lemma writeOutput_loop_success_last fuel a points ro sd now retry tr ro'
    pre name pts post :
  writeOutput_loop fuel a points ro sd now retry = Some (tr, ro') →
  tr = pre ++ EvWrite name pts None :: post →
  attempts post = 0%nat.
Proof.
  revert ro now retry tr pre.
  induction fuel as [|fuel IH]; intros ro now retry tr pre H Heq; [done|].
  apply writeOutput_loop_turn in H.
  destruct H as [(_ & -> & _)|[(_ & _ & _ & ->)|[(_ & Hko & _ & _ & ->)|H]]].
  - destruct pre as [|? [|? ?]]; by simplify_eq/=.
  - destruct pre as [|? [|? [|? ?]]]; by simplify_eq/=.
  - destruct pre as [|? [|? [|? ?]]]; by simplify_eq/=.
  - destruct H as (_ & _ & e & tr' & He & Hrec & ->).
    destruct pre as [|? [|? [|? pre]]]; simplify_eq/=.
    by eapply IH.
Qed.

(** A writer only writes, logs and sleeps. *)
Lemma writeOutput_loop_events fuel a points ro sd now retry tr ro' :
  writeOutput_loop fuel a points ro sd now retry = Some (tr, ro') →
  forallb writer_event tr = true.
Proof.
  revert ro now retry tr.
  induction fuel as [|fuel IH]; intros ro now retry tr H; [done|].
  apply writeOutput_loop_turn in H.
  destruct H as [(_ & -> & _)|[(_ & _ & _ & ->)|[(_ & _ & _ & _ & ->)|H]]];
    try done.
  destruct H as (_ & _ & e & tr' & _ & Hrec & ->).
  cbn. by eapply IH.
Qed.

(** C1 (as amended): with [0 <= FlushRetries] (and below the largest
    [int], so that [FlushRetries + 1] does not wrap), a writer given enough
    fuel returns; it makes at most [FlushRetries + 1] Write attempts; if
    every attempt fails and shutdown is never signalled it makes exactly
    [FlushRetries + 1] attempts and its last act is the FATAL line
    reporting that count and the number of dropped points; a successful
    attempt is followed by no other; and the writer only writes, logs and
    sleeps, so the batch is not queued again. *)
Theorem writeOutput_attempts (fuel : nat) (a : Agent) (points : list Point)
    (ro : runningOutput) (sd : shutdown_signal) :
  0 ≤ FlushRetries a < max_int →
  (writeOutput_fuel a ≤ fuel)%nat →
  ∃ tr ro',
    writeOutput fuel a points ro sd = Some (tr, ro')
    ∧ Z.of_nat (attempts tr) ≤ FlushRetries a + 1
    ∧ (sd = None → all_writes_failed tr →
       Z.of_nat (attempts tr) = FlushRetries a + 1
       ∧ last tr = Some (fatal_line (ro_name ro) (FlushRetries a + 1)
                           (length points)))
    ∧ (∀ pre name pts post,
         tr = pre ++ EvWrite name pts None :: post → attempts post = 0%nat)
    ∧ forallb writer_event tr = true.
Proof.
  intros [H0 Hmax] Hfuel. unfold writeOutput, writeOutput_fuel in *.
  destruct (writeOutput_loop_returns fuel a points ro sd 0 0)
    as [[tr ro'] Hrun]; [lia..|].
  exists tr, ro'. split; [done|]. split; [|split; [|split]].
  - apply writeOutput_loop_attempts_le in Hrun; lia.
  - intros -> Hfail.
    destruct (writeOutput_loop_all_failed _ _ _ _ _ _ _ _ Hrun Hfail)
      as [Hn Hlast]; [lia..|].
    rewrite int_add_small in Hlast by (unfold min_int, max_int in *; lia).
    split; [lia|done].
  - intros pre name pts post Heq.
    by eapply writeOutput_loop_success_last.
  - by eapply writeOutput_loop_events.
Qed.

Lemma writeOutput_attempts_witness :
  ∃ tr ro',
    writeOutput 3 (with_retries 2) [a_point] influx_failing None
      = Some (tr, ro')
    ∧ attempts tr = 3%nat
    ∧ last tr = Some (fatal_line "influx" 3 1).
Proof.
  destruct (writeOutput_attempts 3 (with_retries 2) [a_point] influx_failing
              None) as (tr & ro' & Hrun & _ & Hall & _).
  - unfold max_int. cbn. lia.
  - vm_compute. lia.
  - exists tr, ro'. split; [exact Hrun|].
    vm_compute in Hrun. injection Hrun as <- <-.
    destruct Hall as [Hn Hlast]; [reflexivity| |].
    + intros name points r Hin.
      repeat (destruct Hin as [Hin|Hin]; [by simplify_eq|]). done.
    + split; [reflexivity|exact Hlast].
Defined.

(** C1, as stated, fails for a negative [FlushRetries]: the loop body runs
    once before [retry >= retries] is looked at. *)
Lemma writeOutput_negative_retries :
  ∃ tr ro',
    writeOutput 1 (with_retries (-1)) [a_point] influx_failing None
      = Some (tr, ro')
    ∧ attempts tr = 1%nat
    ∧ ¬ (Z.of_nat (attempts tr) ≤ FlushRetries (with_retries (-1)) + 1).
Proof.
  eexists _, _. split; [reflexivity|]. split; [reflexivity|]. cbn. lia.
Qed.

(** Shutdown signalled during a retry sleep: the sleep runs to its end, the
    next turn of the loop calls Write, and only the [select] after that
    call sees the closed channel. *)
Lemma writeOutput_loop_signal_in_sleep fuel a points ro k now retry tr ro'
    pre d post :
  writeOutput_loop fuel a points ro (Some k) now retry = Some (tr, ro') →
  tr = pre ++ EvSleep d :: post →
  (now + blocking_ops pre)%nat = k →
  ∃ r, post = [EvWrite (ro_name ro) points r].
Proof.
  revert ro now retry tr pre.
  induction fuel as [|fuel IH]; intros ro now retry tr pre H Heq Hk; [done|].
  apply writeOutput_loop_turn in H.
  destruct H as [(_ & -> & _)|[(_ & _ & _ & ->)|[(_ & _ & _ & _ & ->)|H]]].
  - destruct pre as [|? [|? ?]]; by simplify_eq/=.
  - destruct pre as [|? [|? [|? ?]]]; by simplify_eq/=.
  - destruct pre as [|? [|? [|? ?]]]; by simplify_eq/=.
  - destruct H as (Hopen & _ & e & tr' & He & Hrec & ->).
    destruct pre as [|e1 [|e2 [|e3 pre]]]; simplify_eq/=.
    + rewrite !blocking_ops_cons in Hrec, Hopen. cbn in Hrec, Hopen.
      destruct fuel as [|fuel]; [done|].
      apply writeOutput_loop_turn in Hrec. cbn [ro_name ro_output] in Hrec.
      assert (closed_after (Some (now + 1)%nat) (S (S (S now))) = true) as Hc
        by (unfold closed_after; apply Nat.ltb_lt; lia).
      rewrite Hc in Hrec.
      destruct Hrec as [(_ & -> & _)|[(? & _)|[(? & _)|(? & _)]]]; try done.
      eauto.
    + eapply (IH _ (S (S now))) in Hrec as [r ->]; [eauto|done|].
      rewrite !blocking_ops_cons. cbn. lia.
Qed.

(** C2 (as amended): if the shutdown channel is closed while the writer is
    in a retry sleep (the sleep is its [k]-th blocking operation), the
    writer makes exactly one more Write attempt after the sleep and then
    exits, without a log line, whatever that attempt returned. *)
Theorem writeOutput_shutdown_during_sleep (fuel : nat) (a : Agent)
    (points : list Point) (ro : runningOutput) (k : nat)
    (tr : trace) (ro' : runningOutput)
    (pre : trace) (d : Duration) (post : trace) :
  writeOutput fuel a points ro (Some k) = Some (tr, ro') →
  tr = pre ++ EvSleep d :: post →
  blocking_ops pre = k →
  ∃ r, post = [EvWrite (ro_name ro) points r].
Proof.
  intros Hrun Heq Hk. eapply writeOutput_loop_signal_in_sleep; eauto.
Qed.

Lemma writeOutput_shutdown_during_sleep_witness :
  writeOutput 3 (with_retries 2) [a_point] influx_failing (Some 1%nat)
    = Some ([EvWrite "influx" [a_point] (Some "boom");
             EvLog "Error in output [%s]: %s, retrying in %s"
               [AStr "influx"; AStr "boom"; ADur (10 * Second)]]
            ++ EvSleep (10 * Second)
            :: [EvWrite "influx" [a_point] (Some "boom")],
            influx_failing)
  ∧ ∃ r, [EvWrite "influx" [a_point] (Some "boom")]
         = [EvWrite (ro_name influx_failing) [a_point] r].
Proof.
  split; [reflexivity|].
  apply (writeOutput_shutdown_during_sleep 3 (with_retries 2) [a_point]
           influx_failing 1
           ([EvWrite "influx" [a_point] (Some "boom");
             EvLog "Error in output [%s]: %s, retrying in %s"
               [AStr "influx"; AStr "boom"; ADur (10 * Second)]]
            ++ EvSleep (10 * Second)
            :: [EvWrite "influx" [a_point] (Some "boom")])
           influx_failing
           [EvWrite "influx" [a_point] (Some "boom");
            EvLog "Error in output [%s]: %s, retrying in %s"
              [AStr "influx"; AStr "boom"; ADur (10 * Second)]]
           (10 * Second)
           [EvWrite "influx" [a_point] (Some "boom")]);
    reflexivity.
Defined.

(** C2, as stated, fails: with the signal delivered during the first retry
    sleep, a Write attempt follows that sleep. *)
Lemma writeOutput_writes_after_interrupted_sleep :
  ∃ tr ro' pre d post,
    writeOutput 3 (with_retries 2) [a_point] influx_failing (Some 1%nat)
      = Some (tr, ro')
    ∧ tr = pre ++ EvSleep d :: post
    ∧ blocking_ops pre = 1%nat
    ∧ attempts post = 1%nat.
Proof.
  eexists _, _,
    [EvWrite "influx" [a_point] (Some "boom");
     EvLog "Error in output [%s]: %s, retrying in %s"
       [AStr "influx"; AStr "boom"; ADur (10 * Second)]],
    (10 * Second), [EvWrite "influx" [a_point] (Some "boom")].
  split; [reflexivity|]. split; [reflexivity|]. split; reflexivity.
Qed.

(** ** Connect *)

Lemma io_app (t1 t2 : trace) : io (t1 ++ t2) = io t1 ++ io t2.
Proof. unfold io. apply List.filter_app. Qed.

Lemma io_log_if (b : bool) (e : event) : is_log e = true → io (log_if b e) = [].
Proof. intros He. destruct b; cbn; [by rewrite He|done]. Qed.

(** The loop of [Connect], one sink at a time. *)
Lemma Connect_loop_cons debug o rest :
  let r := Connect_loop debug (o :: rest) in
  let r' := Connect_loop debug rest in
  match first_Connect o, second_Connect o with
  | Some _, Some e2 =>
    r.1.2 = Some e2 ∧ io r.1.1 = connect_attempts o
  | _, _ =>
    r.1.2 = r'.1.2 ∧ io r.1.1 = connect_attempts o ++ io r'.1.1
  end.
Proof.
  unfold connect_attempts, first_Connect, second_Connect.
  cbn [Connect_loop].
  destruct (Output_Connect (ro_output o)) as [[e1|] out1]; cbn [fst snd].
  - destruct (Output_Connect out1) as [[e2|] out2]; cbn [fst snd].
    + rewrite !io_app, io_log_if by done. done.
    + destruct (Connect_loop debug rest) as [[tr res] rest'].
      cbn [fst snd]. rewrite !io_app, !io_log_if by done. done.
  - destruct (Connect_loop debug rest) as [[tr res] rest'].
    cbn [fst snd]. rewrite !io_app, !io_log_if by done. done.
Qed.

Lemma Connect_loop_ok debug os :
  Forall connects_in_two os →
  (Connect_loop debug os).1.2 = None
  ∧ io (Connect_loop debug os).1.1 = concat (connect_attempts <$> os).
Proof.
  induction 1 as [|o rest Ho _ [IHr IHt]]; [done|].
  pose proof (Connect_loop_cons debug o rest) as Hc. cbv zeta in Hc.
  cbn [fmap list_fmap concat]. change (list_fmap _ _ connect_attempts rest)
    with (connect_attempts <$> rest). rewrite <-IHt.
  destruct Ho as [Ho|Ho]; rewrite Ho in Hc.
  - destruct Hc as [-> ->]. done.
  - destruct (first_Connect o); destruct Hc as [-> ->]; done.
Qed.

Lemma Connect_loop_nil debug os :
  (Connect_loop debug os).1.2 = None → Forall connects_in_two os.
Proof.
  induction os as [|o os IH]; intros Hnone; [constructor|].
  pose proof (Connect_loop_cons debug o os) as Hc. cbv zeta in Hc.
  destruct (first_Connect o) as [e1|] eqn:H1;
    [destruct (second_Connect o) as [e2|] eqn:H2|];
    destruct Hc as [Hr _]; rewrite Hr in Hnone; [done| |].
  - constructor; [by right|by apply IH].
  - constructor; [by left|by apply IH].
Qed.

Lemma Connect_loop_failed debug os e :
  (Connect_loop debug os).1.2 = Some e →
  ∃ connected o rest,
    os = connected ++ o :: rest
    ∧ Forall connects_in_two connected
    ∧ first_Connect o ≠ None
    ∧ second_Connect o = Some e
    ∧ io (Connect_loop debug os).1.1
      = concat (connect_attempts <$> (connected ++ [o])).
Proof.
  induction os as [|o os IH]; [done|]. intros He.
  pose proof (Connect_loop_cons debug o os) as Hc. cbv zeta in Hc.
  destruct (first_Connect o) as [e1|] eqn:H1;
    [destruct (second_Connect o) as [e2|] eqn:H2|].
  - destruct Hc as [Hr Ht]. exists [], o, os. rewrite Hr in He.
    injection He as ->. rewrite Ht. cbn. rewrite app_nil_r.
    split_and!; try done. change (first_Connect o ≠ None). by rewrite H1.
  - destruct Hc as [Hr Ht]. rewrite Hr in He.
    destruct (IH He) as (connected & o' & rest & -> & Hok & Hf & Hs & Hio).
    exists (o :: connected), o', rest. rewrite Ht, Hio.
    split_and!; try done. constructor; [by right|done].
  - destruct Hc as [Hr Ht]. rewrite Hr in He.
    destruct (IH He) as (connected & o' & rest & -> & Hok & Hf & Hs & Hio).
    exists (o :: connected), o', rest. rewrite Ht, Hio.
    split_and!; try done. constructor; [by left|done].
Qed.

(** C5: [Connect] returns nil exactly when every sink connects at its
    first attempt or at its single retry; the effects are then, sink after
    sink in configuration order, one Connect, and after a failed one a
    15 second sleep and one more Connect.  When it returns an error, the
    sinks before the failing one connected within two attempts, the
    failing sink failed twice, the error is that of its retry, and no
    later sink was touched. *)
Theorem Connect_retries_once (a : Agent) :
  let tr := (Connect a).1.1 in
  let err := (Connect a).1.2 in
  (err = None ↔ Forall connects_in_two (outputs a))
  ∧ (err = None → io tr = concat (connect_attempts <$> outputs a))
  ∧ (∀ e, err = Some e →
       ∃ connected o rest,
         outputs a = connected ++ o :: rest
         ∧ Forall connects_in_two connected
         ∧ first_Connect o ≠ None
         ∧ second_Connect o = Some e
         ∧ io tr = concat (connect_attempts <$> (connected ++ [o]))).
Proof.
  assert ((Connect a).1.1 = (Connect_loop (Debug a) (outputs a)).1.1
          ∧ (Connect a).1.2 = (Connect_loop (Debug a) (outputs a)).1.2)
    as [-> ->].
  { unfold Connect. by destruct (Connect_loop _ _) as [[??]?]. }
  cbv zeta. split; [split|split].
  - apply Connect_loop_nil.
  - intros Hok. by apply Connect_loop_ok.
  - intros Hnone. by eapply Connect_loop_ok, Connect_loop_nil.
  - intros e He. by apply Connect_loop_failed.
Qed.

(** ** Close *)

(** The loop calls [Close] on every sink in order; what it returns is the
    result of the last call, or the initial [err] when there is no sink. *)
Lemma Close_loop_spec os err :
  (Close_loop os err).1.1 = (λ o, EvClose (ro_name o) (Close_result o)) <$> os
  ∧ (Close_loop os err).1.2 = default err (Close_result <$> last os).
Proof.
  revert err. induction os as [|o os IH]; intros err; [done|].
  assert (Close_result o = (Output_Close (ro_output o)).1) as Ho by done.
  cbn [Close_loop].
  destruct (Output_Close (ro_output o)) as [err1 out1].
  destruct (IH err1) as [IHt IHr].
  destruct (Close_loop os err1) as [[tr res] rest'].
  cbn [fst snd] in *. subst tr res. split; [by rewrite fmap_cons, Ho|].
  destruct os as [|o' os]; [by simpl; rewrite Ho|].
  rewrite last_cons_cons.
  destruct (last (o' :: os)) eqn:Hl; [done|]. by apply last_None in Hl.
Qed.

(** C10: [Close] calls [Close] on every configured sink, in configuration
    order, and returns the result of the last sink alone.  The agent
    [two_sinks] shows an earlier failure being lost: its first sink fails
    to close and [Close] returns nil. *)
Theorem Close_returns_last_error (a : Agent) :
  (Close a).1.1 = (λ o, EvClose (ro_name o) (Close_result o)) <$> outputs a
  ∧ (Close a).1.2 = default None (Close_result <$> last (outputs a))
  ∧ (Close two_sinks).1.1 = [EvClose "first" (Some "cannot close");
                             EvClose "second" None]
  ∧ (Close two_sinks).1.2 = None.
Proof.
  pose proof (Close_loop_spec (outputs a) None) as [Ht Hr].
  unfold Close. destruct (Close_loop (outputs a) None) as [[tr res] os].
  done.
Qed.

(** ** The gather scheduler *)

Lemma gathered_app (t1 t2 : trace) :
  gathered (t1 ++ t2) = gathered t1 ++ gathered t2.
Proof. apply omap_app. Qed.

Lemma separate_started_app (t1 t2 : trace) :
  separate_started (t1 ++ t2) = separate_started t1 ++ separate_started t2.
Proof. apply omap_app. Qed.

Lemma handed_app (t1 t2 : trace) : handed (t1 ++ t2) = handed t1 ++ handed t2.
Proof. apply omap_app. Qed.

Lemma gathered_cons (e : event) (tr : trace) :
  gathered (e :: tr) = gathered [e] ++ gathered tr.
Proof. apply (gathered_app [e]). Qed.

Lemma separate_started_cons (e : event) (tr : trace) :
  separate_started (e :: tr) = separate_started [e] ++ separate_started tr.
Proof. apply (separate_started_app [e]). Qed.

Lemma gathered_log_gather_error name err :
  gathered (log_gather_error name err) = [].
Proof. by destruct err. Qed.

Lemma handed_log_gather_error name err :
  handed (log_gather_error name err) = [].
Proof. by destruct err. Qed.

Lemma separate_started_log_gather_error name err :
  separate_started (log_gather_error name err) = [].
Proof. by destruct err. Qed.

Lemma parallel_names_cons p ps :
  parallel_names (p :: ps)
  = if cp_Interval (rp_config p) =? 0 then rp_name p :: parallel_names ps
    else parallel_names ps.
Proof.
  unfold parallel_names, zero_interval. cbn [List.filter].
  by destruct (cp_Interval (rp_config p) =? 0).
Qed.

Lemma separate_names_cons p ps :
  separate_names (p :: ps)
  = if cp_Interval (rp_config p) =? 0 then separate_names ps
    else rp_name p :: separate_names ps.
Proof.
  unfold separate_names, zero_interval. cbn [List.filter].
  by destruct (cp_Interval (rp_config p) =? 0).
Qed.

(** Unfolds one turn of the loop of [gatherParallel] on [plugin :: rest]
    and brings the induction hypothesis [IH] to the recursive call. *)
Ltac gatherParallel_turn a plugin rest counter IH :=
  cbn [gatherParallel_loop];
  rewrite ?parallel_names_cons, ?separate_names_cons;
  destruct (cp_Interval (rp_config plugin) =? 0) eqn:?; cbn [negb];
  [ destruct (Plugin_Gather (rp_plugin plugin) (gather_accumulator a plugin))
      as [[? ?] ?];
    specialize (IH (int_add counter 1));
    destruct (gatherParallel_loop a rest (int_add counter 1)) as [[? ?] ?]
  | specialize (IH counter);
    destruct (gatherParallel_loop a rest counter) as [[? ?] ?] ];
  cbn [fst snd rp_name rp_config] in *.

(** One tick of parallel mode gathers from exactly the plugins without an
    interval of their own, whatever their [Gather] returns. *)
Lemma gatherParallel_loop_gathered a ps counter :
  gathered (gatherParallel_loop a ps counter).1.1 = parallel_names ps.
Proof.
  revert counter. induction ps as [|plugin rest IH]; intros counter; [done|].
  gatherParallel_turn a plugin rest counter IH; [|done].
  cbn. rewrite gathered_app, gathered_log_gather_error. cbn. by f_equal.
Qed.

Lemma gatherParallel_loop_no_spawn a ps counter :
  separate_started (gatherParallel_loop a ps counter).1.1 = [].
Proof.
  revert counter. induction ps as [|plugin rest IH]; intros counter; [done|].
  gatherParallel_turn a plugin rest counter IH; [|done].
  cbn. by rewrite separate_started_app, separate_started_log_gather_error.
Qed.

(** Gathering changes the private state of the collectors only: names and
    configurations stay. *)
Lemma gatherParallel_loop_plugins a ps counter :
  parallel_names (gatherParallel_loop a ps counter).2 = parallel_names ps
  ∧ separate_names (gatherParallel_loop a ps counter).2 = separate_names ps.
Proof.
  revert counter. induction ps as [|plugin rest IH]; intros counter; [done|].
  gatherParallel_turn a plugin rest counter IH;
    destruct IH as [IH1 IH2];
    rewrite parallel_names_cons, separate_names_cons;
    cbn [rp_name rp_config]; rewrite Heqb; by rewrite IH1, IH2.
Qed.

(** Every accumulator of parallel mode has the agent's tags installed. *)
Lemma gatherParallel_loop_handed a ps counter :
  Forall (λ acc, acc_defaultTags acc = Tags a)
    (handed (gatherParallel_loop a ps counter).1.1).
Proof.
  revert counter. induction ps as [|plugin rest IH]; intros counter;
    [constructor|].
  gatherParallel_turn a plugin rest counter IH; [|done].
  cbn. constructor; [done|].
  by rewrite handed_app, handed_log_gather_error.
Qed.

(** Every error of a [Gather] is followed by its log line. *)
Lemma gatherParallel_loop_logged a ps counter name acc points e :
  In (EvGather name acc points (Some e))
     (gatherParallel_loop a ps counter).1.1 →
  In (gather_error_line name e) (gatherParallel_loop a ps counter).1.1.
Proof.
  revert counter. induction ps as [|plugin rest IH]; intros counter; [done|].
  gatherParallel_turn a plugin rest counter IH; [|done].
  intros [Heq|Hin].
  - simplify_eq. right. apply in_or_app. left. by left.
  - right. apply in_or_app. apply in_app_or in Hin as [Hin|Hin].
    + destruct o; cbn in Hin; [destruct Hin as [?|[]]|]; done.
    + right. by apply IH.
Qed.

Lemma gatherParallel_gathered a :
  gathered (gatherParallel a).1.1 = parallel_names (plugins a).
Proof.
  unfold gatherParallel.
  pose proof (gatherParallel_loop_gathered a (plugins a) 0) as H.
  destruct (gatherParallel_loop a (plugins a) 0) as [[tr c] ps].
  cbn [fst snd] in *. by rewrite gathered_app, H, app_nil_r.
Qed.

Lemma gatherParallel_no_spawn a :
  separate_started (gatherParallel a).1.1 = [].
Proof.
  unfold gatherParallel.
  pose proof (gatherParallel_loop_no_spawn a (plugins a) 0) as H.
  destruct (gatherParallel_loop a (plugins a) 0) as [[tr c] ps].
  cbn [fst snd] in *. by rewrite separate_started_app, H.
Qed.

Lemma gatherParallel_plugins a :
  parallel_names (plugins (gatherParallel a).2) = parallel_names (plugins a)
  ∧ separate_names (plugins (gatherParallel a).2) = separate_names (plugins a).
Proof.
  unfold gatherParallel.
  pose proof (gatherParallel_loop_plugins a (plugins a) 0) as H.
  by destruct (gatherParallel_loop a (plugins a) 0) as [[tr c] ps].
Qed.

Lemma gatherParallel_nil a : (gatherParallel a).1.2 = None.
Proof.
  unfold gatherParallel.
  by destruct (gatherParallel_loop a (plugins a) 0) as [[tr c] ps].
Qed.

Lemma gatherParallel_handed a :
  Forall (λ acc, acc_defaultTags acc = Tags a) (handed (gatherParallel a).1.1).
Proof.
  unfold gatherParallel.
  pose proof (gatherParallel_loop_handed a (plugins a) 0) as H.
  destruct (gatherParallel_loop a (plugins a) 0) as [[tr c] ps].
  cbn [fst snd] in *. by rewrite handed_app, app_nil_r.
Qed.

Lemma gatherParallel_logged a name acc points e :
  In (EvGather name acc points (Some e)) (gatherParallel a).1.1 →
  In (gather_error_line name e) (gatherParallel a).1.1.
Proof.
  unfold gatherParallel.
  pose proof (gatherParallel_loop_logged a (plugins a) 0 name acc points e) as H.
  destruct (gatherParallel_loop a (plugins a) 0) as [[tr c] ps].
  cbn [fst snd] in *. intros Hin. apply in_or_app.
  apply in_app_or in Hin as [Hin|[Hin|[]]]; [left; auto|done].
Qed.

(** *** Separate mode *)

(** One turn of [gatherSeparate]: one [Gather] of the plugin, with the
    agent's tags; [outerr] is never set. *)
Lemma gatherSeparate_turn_spec a plugin :
  let r := gatherSeparate_turn a plugin in
  r.1.2 = None
  ∧ gathered r.1.1 = [rp_name plugin]
  ∧ handed r.1.1 = [gather_accumulator a plugin]
  ∧ rp_name r.2 = rp_name plugin
  ∧ rp_config r.2 = rp_config plugin.
Proof.
  unfold gatherSeparate_turn.
  destruct (Plugin_Gather (rp_plugin plugin) (gather_accumulator a plugin))
    as [[points err] p]. cbn.
  rewrite gathered_app, handed_app, gathered_log_gather_error,
    handed_log_gather_error. done.
Qed.

(** The loop of [gatherSeparate] gathers once per turn, and ends only on
    shutdown: no result of [Gather] makes it return. *)
Lemma gatherSeparate_loop_spec a plugin script :
  let r := gatherSeparate_loop a plugin script in
  r.1.2 = (if has_shutdown script then Returned None else Waiting)
  ∧ gathered r.1.1 = replicate (S (leading_ticks script)) (rp_name plugin)
  ∧ Forall (λ acc, acc_defaultTags acc = Tags a) (handed r.1.1).
Proof.
  revert plugin. induction script as [|c script IH]; intros plugin;
    cbn [gatherSeparate_loop];
    destruct (gatherSeparate_turn_spec a plugin) as (Herr & Hg & Hh & Hn & _);
    destruct (gatherSeparate_turn a plugin) as [[tr outerr] plugin'];
    cbn [fst snd] in *; subst outerr.
  - cbn [fst snd]. rewrite Hg, Hh. split_and!; [done..|].
    by repeat constructor.
  - destruct c.
    + cbn [fst snd]. rewrite Hg, Hh. split_and!; [done..|].
      by repeat constructor.
    + destruct (IH plugin') as (IHo & IHg & IHh).
      destruct (gatherSeparate_loop a plugin' script) as [[tr' out] plugin''].
      cbn [fst snd] in *.
      rewrite gathered_app, handed_app, Hg, Hh, IHg, Hn. split_and!; [done..|].
      constructor; done.
Qed.

(** *** Run *)

(** When every service starts, the first loop of [Run] starts one
    [gatherSeparate] task per plugin with an interval of its own, and
    gathers nothing itself. *)
Lemma Run_start_spec ps deferred :
  Forall starts ps →
  let r := Run_start ps deferred in
  r.1.1.2 = None
  ∧ separate_started r.1.1.1 = separate_names ps
  ∧ gathered r.1.1.1 = []
  ∧ parallel_names r.2 = parallel_names ps
  ∧ gathered r.1.2 = gathered deferred
  ∧ separate_started r.1.2 = separate_started deferred.
Proof.
  intros Hs. revert deferred.
  induction Hs as [|plugin rest Hp _ IH]; intros deferred; [done|].
  cbv zeta. cbn [Run_start]. unfold starts in Hp.
  rewrite separate_names_cons, parallel_names_cons.
  destruct (pl_Start (rp_plugin plugin)) as [start|].
  - rewrite Hp.
    destruct (IH (EvStop (rp_name plugin) :: deferred))
      as (IHe & IHs & IHg & IHp & IHd & IHd').
    destruct (Run_start rest (EvStop (rp_name plugin) :: deferred))
      as [[[tr err] deferred'] rest'].
    cbn [fst snd] in *. rewrite parallel_names_cons. cbn [rp_name rp_config].
    clear IH. unfold separate_started, gathered in *.
    destruct (cp_Interval (rp_config plugin) =? 0); cbn in *;
      rewrite ?IHs, ?IHg, ?IHp; done.
  - destruct (IH deferred) as (IHe & IHs & IHg & IHp & IHd & IHd').
    destruct (Run_start rest deferred) as [[[tr err] deferred'] rest'].
    cbn [fst snd] in *. rewrite parallel_names_cons.
    clear IH. unfold separate_started, gathered in *.
    destruct (cp_Interval (rp_config plugin) =? 0); cbn in *;
      rewrite ?IHs, ?IHg, ?IHp; done.
Qed.

(** The last loop of [Run]: one [gatherParallel] per turn, each over the
    plugins without an interval of their own; it ends only on shutdown. *)
Lemma Run_loop_spec a script :
  let r := Run_loop a script in
  r.1.2 = (if has_shutdown script then Returned None else Waiting)
  ∧ gathered r.1.1
    = concat (replicate (S (leading_ticks script)) (parallel_names (plugins a)))
  ∧ separate_started r.1.1 = [].
Proof.
  revert a. induction script as [|c script IH]; intros a;
    cbn [Run_loop];
    pose proof (gatherParallel_gathered a) as Hg;
    pose proof (gatherParallel_no_spawn a) as Hs;
    pose proof (gatherParallel_nil a) as He;
    pose proof (gatherParallel_plugins a) as [Hp _];
    destruct (gatherParallel a) as [[tr err] a'];
    cbn [fst snd] in *; subst err; rewrite app_nil_r.
  - rewrite Hg, Hs. cbn. by rewrite app_nil_r.
  - destruct c.
    + cbn [fst snd]. rewrite Hg, Hs. cbn. by rewrite app_nil_r.
    + destruct (IH a') as (IHo & IHg & IHs).
      destruct (Run_loop a' script) as [[tr' out] a''].
      cbn [fst snd] in *.
      rewrite gathered_app, separate_started_app, Hg, Hs, IHg, IHs, Hp.
      done.
Qed.

(** C4: with a positive global interval and services that start, [Run]
    starts a separate gatherer for exactly the plugins whose interval is
    not zero, and each turn of its loop (one per global tick) gathers, in
    parallel mode, from exactly the plugins whose interval is zero.  A
    call of [gatherParallel] gathers from the zero-interval plugins and
    starts no separate gatherer.  A separate gatherer with a positive
    interval gathers from its plugin at once and once more after each of
    its own ticks, until shutdown; no separate gatherer gathers from
    another plugin than its own.  A plugin whose interval equals the
    global interval has a non-zero interval: it is among the separately
    gathered ones and not among those of parallel mode. *)
Theorem scheduling_by_interval (a : Agent) (script : list select_case) :
  Forall starts (plugins a) →
  0 < Interval a →
  separate_started (Run a script).1.1 = separate_names (plugins a)
  ∧ gathered (Run a script).1.1
    = concat (replicate (S (leading_ticks script)) (parallel_names (plugins a)))
  ∧ gathered (gatherParallel a).1.1 = parallel_names (plugins a)
  ∧ separate_started (gatherParallel a).1.1 = []
  ∧ (∀ plugin sel,
       0 < cp_Interval (rp_config plugin) →
       (gatherSeparate a plugin sel).1.2
       = (if has_shutdown sel then Returned None else Waiting)
       ∧ gathered (gatherSeparate a plugin sel).1.1
         = replicate (S (leading_ticks sel)) (rp_name plugin))
  ∧ (∀ plugin sel,
       gathered (gatherSeparate a plugin sel).1.1
       = replicate (length (gathered (gatherSeparate a plugin sel).1.1))
           (rp_name plugin))
  ∧ (∀ plugin,
       In plugin (plugins a) →
       cp_Interval (rp_config plugin) = Interval a →
       In (rp_name plugin) (separate_names (plugins a))
       ∧ ¬ In plugin (List.filter zero_interval (plugins a))).
Proof.
  intros Hstart Hpos.
  assert (separate_started (Run a script).1.1 = separate_names (plugins a)
          ∧ gathered (Run a script).1.1
            = concat (replicate (S (leading_ticks script))
                        (parallel_names (plugins a)))) as [H1 H2].
  { unfold Run.
    destruct (Run_start_spec (plugins a) [] Hstart)
      as (He & Hs & Hg & Hp & Hd & Hd').
    destruct (Run_start (plugins a) []) as [[[tr0 err] deferred] ps].
    cbn [fst snd] in *. subst err.
    unfold NewTicker_panics. cbn [Interval set_plugins].
    destruct (Z.leb_spec (Interval a) 0) as [|_]; [lia|].
    destruct (Run_loop_spec (set_plugins ps a) script) as (_ & Hlg & Hls).
    destruct (Run_loop (set_plugins ps a) script) as [[tr out] a'].
    cbn [fst snd plugins set_plugins] in *.
    rewrite separate_started_cons, gathered_cons.
    rewrite !separate_started_app, !gathered_app, Hs, Hg, Hlg, Hls, Hp.
    unfold gathered, separate_started in Hd, Hd' |- *.
    destruct out; cbn in Hd, Hd' |- *; rewrite ?Hd, ?Hd', ?app_nil_r; done. }
  split_and!; try done.
  - apply gatherParallel_gathered.
  - apply gatherParallel_no_spawn.
  - intros plugin sel Hown. unfold gatherSeparate, NewTicker_panics.
    destruct (Z.leb_spec (cp_Interval (rp_config plugin)) 0) as [|_]; [lia|].
    by destruct (gatherSeparate_loop_spec a plugin sel) as (-> & -> & _).
  - intros plugin sel. unfold gatherSeparate.
    destruct (NewTicker_panics _); [done|].
    destruct (gatherSeparate_loop_spec a plugin sel) as (_ & -> & _).
    by rewrite length_replicate.
  - intros plugin Hin Heq.
    assert (zero_interval plugin = false) as Hz
      by (unfold zero_interval; apply Z.eqb_neq; lia).
    split.
    + unfold separate_names. apply in_map, List.filter_In. by rewrite Hz.
    + rewrite List.filter_In. rewrite Hz. by intros [_ ?].
Qed.

Lemma scheduling_by_interval_witness :
  separate_started (Run three_plugins [SelTick; SelShutdown]).1.1 = ["net"]
  ∧ gathered (Run three_plugins [SelTick; SelShutdown]).1.1
    = ["mem"; "disk"; "mem"; "disk"]
  ∧ gathered (gatherSeparate three_plugins
                (plugin_every "net" (10 * Second) None)
                [SelTick; SelTick; SelShutdown]).1.1
    = ["net"; "net"; "net"].
Proof.
  destruct (scheduling_by_interval three_plugins [SelTick; SelShutdown])
    as (H1 & H2 & _ & _ & H5 & _).
  - repeat constructor.
  - reflexivity.
  - split; [exact H1|]. split; [exact H2|].
    apply (H5 (plugin_every "net" (10 * Second) None)
              [SelTick; SelTick; SelShutdown]).
    reflexivity.
Defined.

Lemma gatherSeparate_turn_logged a plugin name acc points e :
  In (EvGather name acc points (Some e)) (gatherSeparate_turn a plugin).1.1 →
  In (gather_error_line name e) (gatherSeparate_turn a plugin).1.1.
Proof.
  unfold gatherSeparate_turn.
  destruct (Plugin_Gather (rp_plugin plugin) (gather_accumulator a plugin))
    as [[pts [e'|]] p]; cbn.
  - intros [H|[H|[H|[]]]]; simplify_eq. right. by left.
  - intros [H|[H|[]]]; simplify_eq.
Qed.

Lemma gatherSeparate_loop_logged a plugin script name acc points e :
  In (EvGather name acc points (Some e))
     (gatherSeparate_loop a plugin script).1.1 →
  In (gather_error_line name e) (gatherSeparate_loop a plugin script).1.1.
Proof.
  revert plugin. induction script as [|c script IH]; intros plugin;
    cbn [gatherSeparate_loop];
    pose proof (gatherSeparate_turn_logged a plugin name acc points e) as Hturn;
    destruct (gatherSeparate_turn a plugin) as [[tr [e'|]] plugin'];
    cbn [fst snd] in *; try done.
  destruct c; cbn [fst snd]; [done|].
  specialize (IH plugin').
  destruct (gatherSeparate_loop a plugin' script) as [[tr' out] plugin''].
  cbn [fst snd] in *. rewrite !in_app_iff. intros [?|?]; auto.
Qed.

(** C7: an error of a collector's [Gather] is logged and goes no further.
    [gatherParallel] returns nil and its trace holds the [Gather] of every
    plugin of the tick, with the log line of each error.  The loop of
    [gatherSeparate] ends on shutdown only (it never returns an error) and
    gathers once more after every tick, with the log line of each error;
    [gatherSeparate] itself differs only by the panic of [time.NewTicker]
    on a non-positive interval.  The loop of [Run] likewise ends on
    shutdown only and runs parallel mode once more after every tick. *)
Theorem gather_errors_swallowed (a : Agent) (plugin : runningPlugin)
    (script : list select_case) :
  (gatherParallel a).1.2 = None
  ∧ gathered (gatherParallel a).1.1 = parallel_names (plugins a)
  ∧ (∀ name acc points e,
       In (EvGather name acc points (Some e)) (gatherParallel a).1.1 →
       In (gather_error_line name e) (gatherParallel a).1.1)
  ∧ (gatherSeparate a plugin script).1.2
    = (if NewTicker_panics (cp_Interval (rp_config plugin))
       then Panicked ticker_panic
       else if has_shutdown script then Returned None else Waiting)
  ∧ gathered (gatherSeparate a plugin script).1.1
    = (if NewTicker_panics (cp_Interval (rp_config plugin)) then []
       else replicate (S (leading_ticks script)) (rp_name plugin))
  ∧ (∀ name acc points e,
       In (EvGather name acc points (Some e))
          (gatherSeparate a plugin script).1.1 →
       In (gather_error_line name e) (gatherSeparate a plugin script).1.1)
  ∧ (Run_loop a script).1.2
    = (if has_shutdown script then Returned None else Waiting)
  ∧ gathered (Run_loop a script).1.1
    = concat (replicate (S (leading_ticks script)) (parallel_names (plugins a))).
Proof.
  destruct (gatherSeparate_loop_spec a plugin script) as (Ho & Hg & _).
  destruct (Run_loop_spec a script) as (Hro & Hrg & _).
  split_and!.
  - apply gatherParallel_nil.
  - apply gatherParallel_gathered.
  - apply gatherParallel_logged.
  - unfold gatherSeparate. by destruct (NewTicker_panics _).
  - unfold gatherSeparate. by destruct (NewTicker_panics _).
  - unfold gatherSeparate. destruct (NewTicker_panics _); [done|].
    apply gatherSeparate_loop_logged.
  - done.
  - done.
Qed.

(** ** Default tags *)

(** Modelled [Add]: a point gets the [host] of the installed default tags
    unless the collector gave its own. *)
Lemma acc_Add_host acc s h :
  acc_defaultTags acc !! "host" = Some h →
  pt_tags (acc_Add acc s) !! "host" = Some (default h (s_tags s !! "host")).
Proof.
  intros Hh. unfold acc_Add. cbn [pt_tags].
  rewrite lookup_union. rewrite Hh. by destruct (s_tags s !! "host").
Qed.

(** In Test mode no accumulator gets the default tags. *)
Lemma Test_loop_handed ps :
  Forall (λ acc, acc_defaultTags acc = ∅) (handed (Test_loop ps).1.1).
Proof.
  induction ps as [|plugin rest IH]; [constructor|].
  cbn [Test_loop].
  destruct (Plugin_Gather (rp_plugin plugin) (test_accumulator plugin))
    as [[pts [e|]] p].
  - cbn. rewrite handed_app. apply Forall_app. split.
    + by destruct (negb (cp_Interval (rp_config plugin) =? 0)).
    + by repeat constructor.
  - destruct (rp_name plugin =? "cpu")%string.
    + destruct (Plugin_Gather p (test_accumulator plugin)) as [[pts2 [e2|]] p2].
      * cbn. rewrite !handed_app. rewrite !Forall_app. split_and!.
        -- by destruct (negb (cp_Interval (rp_config plugin) =? 0)).
        -- by repeat constructor.
        -- by repeat constructor.
      * destruct (Test_loop rest) as [[tr res] rest']. cbn in *.
        rewrite !handed_app. rewrite !Forall_app. split_and!.
        -- by destruct (negb (cp_Interval (rp_config plugin) =? 0)).
        -- by repeat constructor.
        -- by repeat constructor.
    + destruct (Test_loop rest) as [[tr res] rest']. cbn in *.
      rewrite !handed_app. rewrite !Forall_app. split_and!.
      * by destruct (negb (cp_Interval (rp_config plugin) =? 0)).
      * by repeat constructor.
      * done.
Qed.

(** C3 at a failing input: the agent [one_plugin] has the tag [host], and
    parallel mode publishes the collector's point with it; Test mode hands
    the collector an accumulator without default tags and publishes the
    point without [host]. *)
Theorem Test_lacks_default_tags :
  Tags one_plugin !! "host" = Some "box"
  ∧ (λ p, pt_tags p !! "host") <$> published (gatherParallel one_plugin).1.1
    = [Some "box"]
  ∧ acc_defaultTags <$> handed (Test one_plugin).1.1 = [∅]
  ∧ (λ p, pt_tags p !! "host") <$> published (Test one_plugin).1.1 = [None].
Proof. split_and!; reflexivity. Qed.

(** ** flush *)

Lemma writers_started_flush a points :
  writers_started (flush a points)
  = if (length points =? 0)%nat then []
    else (λ o, (points, ro_name o)) <$> outputs a.
Proof.
  unfold flush. destruct (length points =? 0)%nat; [done|].
  induction (outputs a) as [|o os IH]; [done|].
  cbn. f_equal. exact IH.
Qed.

(** C8: a flush of no points leaves no trace: no writer task and no sink
    call; a flush of a non-empty batch starts one [writeOutput] task per
    configured sink, in configuration order and with that batch, and
    calls no sink itself.  In the flusher, a tick on an empty buffer
    changes nothing. *)
Theorem flush_dispatch (a : Agent) (pt : Point) (points : list Point)
    (script : list flusher_case) :
  flush a [] = []
  ∧ flusher_loop a [] (FlTick :: script) = flusher_loop a [] script
  ∧ flush a (pt :: points)
    = (λ o, EvGo (TaskWriteOutput (pt :: points) (ro_name o))) <$> outputs a
  ∧ writers_started (flush a (pt :: points))
    = (λ o, (pt :: points, ro_name o)) <$> outputs a
  ∧ length (writers_started (flush a (pt :: points))) = length (outputs a)
  ∧ attempts (flush a (pt :: points)) = 0%nat.
Proof.
  split_and!.
  - done.
  - cbn [flusher_loop]. by destruct (flusher_loop a [] script).
  - done.
  - by rewrite writers_started_flush.
  - rewrite writers_started_flush. cbn [length Nat.eqb].
    by rewrite length_fmap.
  - unfold flush. cbn [length Nat.eqb].
    induction (outputs a) as [|o os IH]; [done|exact IH].
Qed.

(** ** NewAgent *)

(** C9 (as amended): when [NewAgent] succeeds, the tag [host] is the
    agent's hostname, whatever the configuration had put under that key;
    the other tags are those of the configuration.  The OS hostname is
    asked for only when the configuration left the hostname empty, and is
    then the agent's hostname; otherwise the configured hostname stays. *)
Theorem NewAgent_host_tag (config : Config) (os_Hostname : error + string)
    (agent : Agent) :
  (NewAgent config os_Hostname).2 = inr agent →
  let applied := (ApplyAgent config default_Agent).2 in
  Tags agent !! "host" = Some (Hostname agent)
  ∧ (∀ k, k ≠ "host" → Tags agent !! k = Tags applied !! k)
  ∧ (if String.eqb (Hostname applied) ""
     then (NewAgent config os_Hostname).1 = [EvHostname os_Hostname]
          ∧ os_Hostname = inr (Hostname agent)
     else (NewAgent config os_Hostname).1 = []
          ∧ Hostname agent = Hostname applied).
Proof.
  unfold NewAgent. cbv zeta.
  destruct (ApplyAgent config default_Agent) as [[err|] applied];
    cbn [fst snd]; [done|].
  destruct (String.eqb (Hostname applied) "") eqn:Hempty.
  - destruct os_Hostname as [err|hostname]; cbn [fst snd]; [done|].
    intros [= <-]. cbn [Tags Hostname set_Tags set_Hostname].
    split_and!; [by rewrite lookup_insert_eq| |done..].
    intros k Hk. by rewrite lookup_insert_ne.
  - cbn [fst snd]. intros [= <-]. cbn [Tags Hostname set_Tags].
    split_and!; [by rewrite lookup_insert_eq| |done..].
    intros k Hk. by rewrite lookup_insert_ne.
Qed.

Lemma NewAgent_host_tag_witness :
  ∃ agent,
    (NewAgent empty_config (inr "box")).2 = inr agent
    ∧ Tags agent !! "host" = Some (Hostname agent)
    ∧ Hostname agent = "box"
    ∧ (NewAgent empty_config (inr "box")).1 = [EvHostname (inr "box")].
Proof.
  eexists. split; [reflexivity|].
  destruct (NewAgent_host_tag empty_config (inr "box") _ eq_refl)
    as (Htag & _ & Hos).
  split; [exact Htag|]. split; [reflexivity|exact (proj1 Hos)].
Defined.

(** C9, as stated, fails: a [host] tag set in the configuration is
    overwritten with the hostname. *)
Lemma NewAgent_overwrites_host_tag :
  ∃ agent,
    Tags (ApplyAgent host_tag_config default_Agent).2 !! "host" = Some "custom"
    ∧ (NewAgent host_tag_config (inr "box")).2 = inr agent
    ∧ Tags agent !! "host" = Some "box".
Proof. eexists. split_and!; reflexivity. Qed.

(** ** LoadOutputs and LoadPlugins *)

#[global] Instance string_le_total : Total string_le.
Proof. intros s1 s2. apply String.leb_total. Qed.

(** [selected] in the words of the spec: the name matches a filter, or
    there is no filter. *)
Lemma selected_spec name filters :
  selected name filters = true ↔ In name filters ∨ filters = [].
Proof.
  unfold selected, sliceContains. rewrite orb_true_iff, existsb_exists.
  split; intros [H|H].
  - left. destruct H as (x & Hin & Heq). apply String.eqb_eq in Heq. by subst.
  - right. destruct filters; [done|]. by apply Nat.eqb_eq in H.
  - left. exists name. split; [done|]. apply String.eqb_refl.
  - right. by subst.
Qed.

Lemma wanted_app filters l1 l2 :
  wanted filters (l1 ++ l2) = wanted filters l1 ++ wanted filters l2.
Proof. apply List.filter_app. Qed.

(** When the loop of [LoadPlugins] ends without an error, it has gone
    through the whole declaration. *)
Lemma LoadPlugins_loop_inr filters config declared ps names names' ps' :
  LoadPlugins_loop filters config declared ps names = (inr names', ps') →
  names' = names ++ wanted filters declared
  ∧ rp_name <$> ps' = (rp_name <$> ps) ++ wanted filters declared
  ∧ Forall (plugin_loads config filters) declared.
Proof.
  revert ps names.
  induction declared as [|name declared IH]; intros ps names H.
  { cbn in H. simplify_eq. by rewrite !app_nil_r. }
  cbn [LoadPlugins_loop] in H. unfold wanted. cbn [List.filter].
  fold (wanted filters declared).
  destruct (Plugins config name) as [plugin|] eqn:Hreg; [|done].
  destruct (selected name filters) eqn:Hsel.
  - destruct (ApplyPlugin config name plugin) as [[err|pconfig] plugin']
      eqn:Happly; [done|].
    apply IH in H as (-> & -> & Hall).
    rewrite fmap_app, <-!app_assoc. split_and!; [done..|].
    constructor; [|done]. unfold plugin_loads. rewrite Hreg, Happly.
    intros _. by eexists.
  - apply IH in H as (-> & -> & Hall). split_and!; [done..|].
    constructor; [|done]. unfold plugin_loads. rewrite Hreg, Hsel. done.
Qed.

(** The first declared name that is not registered stops the loop, when
    the names before it load. *)
Lemma LoadPlugins_loop_first_absent filters config before name after ps names :
  Forall (plugin_loads config filters) before →
  Plugins config name = None →
  (LoadPlugins_loop filters config (before ++ name :: after) ps names).1
  = inl ("Undefined but requested plugin: " +:+ name).
Proof.
  intros Hall Habsent. revert ps names.
  induction Hall as [|first before Hfirst _ IH]; intros ps names.
  { cbn. by rewrite Habsent. }
  cbn [app LoadPlugins_loop]. unfold plugin_loads in Hfirst.
  destruct (Plugins config first) as [plugin|]; [|done].
  destruct (selected first filters); [|apply IH].
  destruct Hfirst as [pconfig Hp]; [done|].
  destruct (ApplyPlugin config first plugin) as [[err|pconfig'] plugin'];
    [done|apply IH].
Qed.

(** What the loop returns does not depend on the plugins already loaded. *)
Lemma LoadPlugins_loop_result filters config declared ps1 ps2 names :
  (LoadPlugins_loop filters config declared ps1 names).1
  = (LoadPlugins_loop filters config declared ps2 names).1.
Proof.
  revert ps1 ps2 names.
  induction declared as [|name declared IH]; intros ps1 ps2 names; [done|].
  cbn [LoadPlugins_loop].
  destruct (Plugins config name) as [plugin|]; [|done].
  destruct (selected name filters); [|apply IH].
  destruct (ApplyPlugin config name plugin) as [[err|pconfig] plugin'];
    [done|apply IH].
Qed.

(** The same three facts for the loop of [LoadOutputs]. *)
Lemma LoadOutputs_loop_inr debug filters config declared os names tr names' os' :
  LoadOutputs_loop debug filters config declared os names
    = (tr, inr names', os') →
  names' = names ++ wanted filters declared
  ∧ ro_name <$> os' = (ro_name <$> os) ++ wanted filters declared
  ∧ Forall (output_loads config filters) declared.
Proof.
  revert os names tr.
  induction declared as [|name declared IH]; intros os names tr H.
  { cbn in H. simplify_eq. by rewrite !app_nil_r. }
  cbn [LoadOutputs_loop] in H. unfold wanted. cbn [List.filter].
  fold (wanted filters declared).
  destruct (Outputs config name) as [output|] eqn:Hreg; [|done].
  destruct (selected name filters) eqn:Hsel.
  - destruct (ApplyOutput config name output) as [[err|] output']
      eqn:Happly; [done|].
    destruct (LoadOutputs_loop debug filters config declared _ _)
      as [[tr' res] os''] eqn:Hrec.
    simplify_eq. apply IH in Hrec as (-> & -> & Hall).
    rewrite fmap_app, <-!app_assoc. split_and!; [done..|].
    constructor; [|done]. unfold output_loads. by rewrite Hreg, Happly.
  - apply IH in H as (-> & -> & Hall). split_and!; [done..|].
    constructor; [|done]. unfold output_loads. rewrite Hreg, Hsel. done.
Qed.

Lemma LoadOutputs_loop_first_absent debug filters config before name after
    os names :
  Forall (output_loads config filters) before →
  Outputs config name = None →
  (LoadOutputs_loop debug filters config (before ++ name :: after) os names).1.2
  = inl ("Undefined but requested output: " +:+ name).
Proof.
  intros Hall Habsent. revert os names.
  induction Hall as [|first before Hfirst _ IH]; intros os names.
  { cbn. by rewrite Habsent. }
  cbn [app LoadOutputs_loop]. unfold output_loads in Hfirst.
  destruct (Outputs config first) as [output|]; [|done].
  destruct (selected first filters); [|apply IH].
  specialize (Hfirst eq_refl).
  destruct (ApplyOutput config first output) as [[err|] output']; [done|].
  specialize (IH (os ++ [mkRunningOutput first output']) (names ++ [first])).
  destruct (LoadOutputs_loop debug filters config _ _ _) as [[tr' res] os''].
  exact IH.
Qed.

Lemma LoadOutputs_loop_result debug1 debug2 filters config declared os1 os2
    names :
  (LoadOutputs_loop debug1 filters config declared os1 names).1.2
  = (LoadOutputs_loop debug2 filters config declared os2 names).1.2.
Proof.
  revert os1 os2 names.
  induction declared as [|name declared IH]; intros os1 os2 names; [done|].
  cbn [LoadOutputs_loop].
  destruct (Outputs config name) as [output|]; [|done].
  destruct (selected name filters); [|apply IH].
  destruct (ApplyOutput config name output) as [[err|] output']; [done|].
  specialize (IH (os1 ++ [mkRunningOutput name output'])
                (os2 ++ [mkRunningOutput name output']) (names ++ [name])).
  destruct (LoadOutputs_loop debug1 filters config _ _ _) as [[tr1 res1] os1'].
  destruct (LoadOutputs_loop debug2 filters config _ _ _) as [[tr2 res2] os2'].
  exact IH.
Qed.

(** When every declared name loads, the loop goes through the whole
    declaration and returns the selected names. *)
Lemma LoadPlugins_loop_loads filters config declared ps names :
  Forall (plugin_loads config filters) declared →
  (LoadPlugins_loop filters config declared ps names).1
  = inr (names ++ wanted filters declared).
Proof.
  intros Hall. revert ps names.
  induction Hall as [|name declared Hname _ IH]; intros ps names.
  { cbn. by rewrite app_nil_r. }
  cbn [LoadPlugins_loop]. unfold wanted. cbn [List.filter].
  fold (wanted filters declared). unfold plugin_loads in Hname.
  destruct (Plugins config name) as [plugin|]; [|done].
  destruct (selected name filters); [|apply IH].
  destruct Hname as [pconfig Hp]; [done|].
  destruct (ApplyPlugin config name plugin) as [[err|pconfig'] plugin'];
    [done|].
  rewrite IH, <-app_assoc. done.
Qed.

(** The first declared name whose configuration does not apply stops the
    loop with that error, when the names before it load. *)
Lemma LoadPlugins_loop_apply_error filters config before name after plugin err
    ps names :
  Forall (plugin_loads config filters) before →
  Plugins config name = Some plugin →
  selected name filters = true →
  (ApplyPlugin config name plugin).1 = inl err →
  (LoadPlugins_loop filters config (before ++ name :: after) ps names).1
  = inl err.
Proof.
  intros Hall Hreg Hsel Happly. revert ps names.
  induction Hall as [|first before Hfirst _ IH]; intros ps names.
  { cbn. rewrite Hreg, Hsel.
    destruct (ApplyPlugin config name plugin) as [[e|c] p']; by simplify_eq/=. }
  cbn [app LoadPlugins_loop]. unfold plugin_loads in Hfirst.
  destruct (Plugins config first) as [plugin1|]; [|done].
  destruct (selected first filters); [|apply IH].
  destruct Hfirst as [pconfig Hp]; [done|].
  destruct (ApplyPlugin config first plugin1) as [[err1|pconfig'] plugin'];
    [done|apply IH].
Qed.

Lemma LoadOutputs_loop_loads debug filters config declared os names :
  Forall (output_loads config filters) declared →
  (LoadOutputs_loop debug filters config declared os names).1.2
  = inr (names ++ wanted filters declared).
Proof.
  intros Hall. revert os names.
  induction Hall as [|name declared Hname _ IH]; intros os names.
  { cbn. by rewrite app_nil_r. }
  cbn [LoadOutputs_loop]. unfold wanted. cbn [List.filter].
  fold (wanted filters declared). unfold output_loads in Hname.
  destruct (Outputs config name) as [output|]; [|done].
  destruct (selected name filters); [|apply IH].
  specialize (Hname eq_refl).
  destruct (ApplyOutput config name output) as [[err|] output']; [done|].
  specialize (IH (os ++ [mkRunningOutput name output']) (names ++ [name])).
  destruct (LoadOutputs_loop debug filters config _ _ _) as [[tr' res] os''].
  cbn [fst snd] in *. rewrite IH, <-app_assoc. done.
Qed.

Lemma LoadOutputs_loop_apply_error debug filters config before name after
    output err os names :
  Forall (output_loads config filters) before →
  Outputs config name = Some output →
  selected name filters = true →
  (ApplyOutput config name output).1 = Some err →
  (LoadOutputs_loop debug filters config (before ++ name :: after) os names).1.2
  = inl err.
Proof.
  intros Hall Hreg Hsel Happly. revert os names.
  induction Hall as [|first before Hfirst _ IH]; intros os names.
  { cbn. rewrite Hreg, Hsel.
    destruct (ApplyOutput config name output) as [[e|] o']; by simplify_eq/=. }
  cbn [app LoadOutputs_loop]. unfold output_loads in Hfirst.
  destruct (Outputs config first) as [output1|]; [|done].
  destruct (selected first filters); [|apply IH].
  specialize (Hfirst eq_refl).
  destruct (ApplyOutput config first output1) as [[err1|] output']; [done|].
  specialize (IH (os ++ [mkRunningOutput first output']) (names ++ [first])).
  destruct (LoadOutputs_loop debug filters config _ _ _) as [[tr' res] os''].
  exact IH.
Qed.

(** [LoadPlugins] succeeds exactly when every declared name loads, and
    returns the configuration error of the first name whose configuration
    does not apply. *)
Lemma LoadPlugins_outcome (a : Agent) (filters : list string) (config : Config) :
  ((LoadPlugins a filters config).1
   = inr (sort_Strings (wanted filters (PluginsDeclared config)))
   ↔ Forall (plugin_loads config filters) (PluginsDeclared config))
  ∧ (∀ before name after plugin err,
       PluginsDeclared config = before ++ name :: after →
       Forall (plugin_loads config filters) before →
       Plugins config name = Some plugin →
       selected name filters = true →
       (ApplyPlugin config name plugin).1 = inl err →
       (LoadPlugins a filters config).1 = inl err).
Proof.
  unfold LoadPlugins.
  pose proof (LoadPlugins_loop_inr filters config (PluginsDeclared config)
                (plugins a) []) as Hinr.
  pose proof (LoadPlugins_loop_loads filters config (PluginsDeclared config)
                (plugins a) []) as Hloads.
  pose proof (λ before name after plugin err,
                LoadPlugins_loop_apply_error filters config before name after
                  plugin err (plugins a) []) as Herr.
  destruct (LoadPlugins_loop filters config (PluginsDeclared config)
              (plugins a) []) as [res ps] eqn:Hloop.
  cbn [fst snd] in *. split; [split|].
  - intros Hn. destruct res as [e|names0]; [done|].
    by destruct (Hinr _ _ eq_refl) as (_ & _ & Hall).
  - intros Hall. by rewrite (Hloads Hall).
  - intros before name after plugin err Hdecl Hall Hreg Hsel Happly.
    specialize (Herr before name after plugin err Hall Hreg Hsel Happly).
    rewrite <-Hdecl, Hloop in Herr. cbn [fst] in Herr. by subst res.
Qed.

Lemma LoadOutputs_outcome (a : Agent) (filters : list string) (config : Config) :
  ((LoadOutputs a filters config).1.2
   = inr (sort_Strings (wanted filters (OutputsDeclared config)))
   ↔ Forall (output_loads config filters) (OutputsDeclared config))
  ∧ (∀ before name after output err,
       OutputsDeclared config = before ++ name :: after →
       Forall (output_loads config filters) before →
       Outputs config name = Some output →
       selected name filters = true →
       (ApplyOutput config name output).1 = Some err →
       (LoadOutputs a filters config).1.2 = inl err).
Proof.
  unfold LoadOutputs.
  pose proof (LoadOutputs_loop_inr (Debug a) filters config
                (OutputsDeclared config) (outputs a) []) as Hinr.
  pose proof (LoadOutputs_loop_loads (Debug a) filters config
                (OutputsDeclared config) (outputs a) []) as Hloads.
  pose proof (λ before name after output err,
                LoadOutputs_loop_apply_error (Debug a) filters config before
                  name after output err (outputs a) []) as Herr.
  destruct (LoadOutputs_loop (Debug a) filters config (OutputsDeclared config)
              (outputs a) []) as [[tr res] os] eqn:Hloop.
  cbn [fst snd] in *. split; [split|].
  - intros Hn. destruct res as [e|names0]; [done|].
    by destruct (Hinr _ _ _ eq_refl) as (_ & _ & Hall).
  - intros Hall. by rewrite (Hloads Hall).
  - intros before name after output err Hdecl Hall Hreg Hsel Happly.
    specialize (Herr before name after output err Hall Hreg Hsel Happly).
    rewrite <-Hdecl, Hloop in Herr. cbn [fst snd] in Herr. by subst res.
Qed.

(** The names a load returns. *)
Lemma sort_Strings_wanted filters declared name :
  Sorted string_le (sort_Strings (wanted filters declared))
  ∧ sort_Strings (wanted filters declared) ≡ₚ wanted filters declared
  ∧ (In name (sort_Strings (wanted filters declared))
     ↔ In name declared ∧ (In name filters ∨ filters = [])).
Proof.
  split_and!.
  - apply Sorted_merge_sort, _.
  - apply merge_sort_Permutation.
  - rewrite <-selected_spec. split; intros H.
    + eapply Permutation_in in H; [|apply merge_sort_Permutation].
      by apply List.filter_In in H.
    + eapply Permutation_in; [symmetry; apply merge_sort_Permutation|].
      by apply List.filter_In.
Qed.

Lemma LoadPlugins_spec (a : Agent) (filters : list string) (config : Config) :
  (∀ names,
     (LoadPlugins a filters config).1 = inr names →
     names = sort_Strings (wanted filters (PluginsDeclared config))
     ∧ rp_name <$> plugins (LoadPlugins a filters config).2
       = (rp_name <$> plugins a) ++ wanted filters (PluginsDeclared config))
  ∧ (∀ name,
       In name (PluginsDeclared config) → Plugins config name = None →
       ∃ e, (LoadPlugins a filters config).1 = inl e)
  ∧ (∀ before name after,
       PluginsDeclared config = before ++ name :: after →
       Forall (plugin_loads config filters) before →
       Plugins config name = None →
       (LoadPlugins a filters config).1
       = inl ("Undefined but requested plugin: " +:+ name))
  ∧ (LoadPlugins (LoadPlugins a filters config).2 filters config).1
    = (LoadPlugins a filters config).1.
Proof.
  unfold LoadPlugins.
  pose proof (LoadPlugins_loop_inr filters config (PluginsDeclared config)
                (plugins a) []) as Hinr.
  pose proof (λ before name after,
                LoadPlugins_loop_first_absent filters config before name after
                  (plugins a) []) as Habs.
  pose proof (λ ps2, LoadPlugins_loop_result filters config
                (PluginsDeclared config) ps2 (plugins a) []) as Hres.
  destruct (LoadPlugins_loop filters config (PluginsDeclared config)
              (plugins a) []) as [res ps] eqn:Hloop.
  cbn [fst snd plugins set_plugins] in *. split_and!.
  - intros names Hn. destruct res as [e|names0]; [done|]. simplify_eq.
    by destruct (Hinr _ _ eq_refl) as (-> & -> & _).
  - intros name Hin Habsent. destruct res as [e|names0]; [by eexists|].
    destruct (Hinr _ _ eq_refl) as (_ & _ & Hall).
    rewrite Forall_forall in Hall. apply list_elem_of_In, Hall in Hin.
    unfold plugin_loads in Hin. by rewrite Habsent in Hin.
  - intros before name after Hdecl Hall Habsent.
    specialize (Habs before name after Hall Habsent).
    rewrite <-Hdecl, Hloop in Habs. cbn [fst] in Habs. by subst res.
  - specialize (Hres ps).
    destruct (LoadPlugins_loop filters config (PluginsDeclared config) ps [])
      as [res2 ps2]. cbn [fst] in *. by subst res2.
Qed.

Lemma LoadOutputs_spec (a : Agent) (filters : list string) (config : Config) :
  (∀ names,
     (LoadOutputs a filters config).1.2 = inr names →
     names = sort_Strings (wanted filters (OutputsDeclared config))
     ∧ ro_name <$> outputs (LoadOutputs a filters config).2
       = (ro_name <$> outputs a) ++ wanted filters (OutputsDeclared config))
  ∧ (∀ name,
       In name (OutputsDeclared config) → Outputs config name = None →
       ∃ e, (LoadOutputs a filters config).1.2 = inl e)
  ∧ (∀ before name after,
       OutputsDeclared config = before ++ name :: after →
       Forall (output_loads config filters) before →
       Outputs config name = None →
       (LoadOutputs a filters config).1.2
       = inl ("Undefined but requested output: " +:+ name))
  ∧ (LoadOutputs (LoadOutputs a filters config).2 filters config).1.2
    = (LoadOutputs a filters config).1.2.
Proof.
  unfold LoadOutputs.
  pose proof (LoadOutputs_loop_inr (Debug a) filters config
                (OutputsDeclared config) (outputs a) []) as Hinr.
  pose proof (λ before name after,
                LoadOutputs_loop_first_absent (Debug a) filters config
                  before name after (outputs a) []) as Habs.
  pose proof (λ os2, LoadOutputs_loop_result (Debug a) (Debug a) filters config
                (OutputsDeclared config) os2 (outputs a) []) as Hres.
  destruct (LoadOutputs_loop (Debug a) filters config (OutputsDeclared config)
              (outputs a) []) as [[tr res] os] eqn:Hloop.
  cbn [fst snd outputs set_outputs Debug] in *. split_and!.
  - intros names Hn. destruct res as [e|names0]; [done|]. simplify_eq.
    by destruct (Hinr _ _ _ eq_refl) as (-> & -> & _).
  - intros name Hin Habsent. destruct res as [e|names0]; [by eexists|].
    destruct (Hinr _ _ _ eq_refl) as (_ & _ & Hall).
    rewrite Forall_forall in Hall. apply list_elem_of_In, Hall in Hin.
    unfold output_loads in Hin. by rewrite Habsent in Hin.
  - intros before name after Hdecl Hall Habsent.
    specialize (Habs before name after Hall Habsent).
    rewrite <-Hdecl, Hloop in Habs. cbn [fst snd] in Habs. by subst res.
  - specialize (Hres os).
    destruct (LoadOutputs_loop (Debug a) filters config
                (OutputsDeclared config) os []) as [[tr2 res2] os2].
    cbn [fst snd] in *. by subst res2.
Qed.

(** C6 (as amended): [LoadPlugins] and [LoadOutputs] succeed exactly when
    every declared name is registered and the configuration of every
    selected one applies.  They then return the declared names that match
    the filter set (all declared names when the filter set is empty),
    sorted, and have appended one running plugin or output per such name
    to the agent, in the order of declaration.  A declared name that is
    absent from the registry makes loading fail.  Loading fails at the
    first declared name that does not load: with the error that names it
    when it is absent from the registry, with the error of its
    configuration when that does not apply.  Loading the same
    configuration again returns the same names in the same order. *)
Theorem loading_selects_and_sorts (a : Agent) (filters : list string)
    (config : Config) :
  (∀ names,
     (LoadPlugins a filters config).1 = inr names →
     names = sort_Strings (wanted filters (PluginsDeclared config))
     ∧ Sorted string_le names
     ∧ names ≡ₚ wanted filters (PluginsDeclared config)
     ∧ (∀ name, In name names
                ↔ In name (PluginsDeclared config)
                  ∧ (In name filters ∨ filters = []))
     ∧ rp_name <$> plugins (LoadPlugins a filters config).2
       = (rp_name <$> plugins a) ++ wanted filters (PluginsDeclared config))
  ∧ (∀ name,
       In name (PluginsDeclared config) → Plugins config name = None →
       ∃ e, (LoadPlugins a filters config).1 = inl e)
  ∧ (∀ before name after,
       PluginsDeclared config = before ++ name :: after →
       Forall (plugin_loads config filters) before →
       Plugins config name = None →
       (LoadPlugins a filters config).1
       = inl ("Undefined but requested plugin: " +:+ name))
  ∧ (LoadPlugins (LoadPlugins a filters config).2 filters config).1
    = (LoadPlugins a filters config).1
  ∧ (∀ names,
       (LoadOutputs a filters config).1.2 = inr names →
       names = sort_Strings (wanted filters (OutputsDeclared config))
       ∧ Sorted string_le names
       ∧ names ≡ₚ wanted filters (OutputsDeclared config)
       ∧ (∀ name, In name names
                  ↔ In name (OutputsDeclared config)
                    ∧ (In name filters ∨ filters = []))
       ∧ ro_name <$> outputs (LoadOutputs a filters config).2
         = (ro_name <$> outputs a) ++ wanted filters (OutputsDeclared config))
  ∧ (∀ name,
       In name (OutputsDeclared config) → Outputs config name = None →
       ∃ e, (LoadOutputs a filters config).1.2 = inl e)
  ∧ (∀ before name after,
       OutputsDeclared config = before ++ name :: after →
       Forall (output_loads config filters) before →
       Outputs config name = None →
       (LoadOutputs a filters config).1.2
       = inl ("Undefined but requested output: " +:+ name))
  ∧ (LoadOutputs (LoadOutputs a filters config).2 filters config).1.2
    = (LoadOutputs a filters config).1.2
  ∧ ((LoadPlugins a filters config).1
     = inr (sort_Strings (wanted filters (PluginsDeclared config)))
     ↔ Forall (plugin_loads config filters) (PluginsDeclared config))
  ∧ (∀ before name after plugin err,
       PluginsDeclared config = before ++ name :: after →
       Forall (plugin_loads config filters) before →
       Plugins config name = Some plugin →
       selected name filters = true →
       (ApplyPlugin config name plugin).1 = inl err →
       (LoadPlugins a filters config).1 = inl err)
  ∧ ((LoadOutputs a filters config).1.2
     = inr (sort_Strings (wanted filters (OutputsDeclared config)))
     ↔ Forall (output_loads config filters) (OutputsDeclared config))
  ∧ (∀ before name after output err,
       OutputsDeclared config = before ++ name :: after →
       Forall (output_loads config filters) before →
       Outputs config name = Some output →
       selected name filters = true →
       (ApplyOutput config name output).1 = Some err →
       (LoadOutputs a filters config).1.2 = inl err).
Proof.
  destruct (LoadPlugins_spec a filters config) as (P1 & P2 & P3 & P4).
  destruct (LoadOutputs_spec a filters config) as (O1 & O2 & O3 & O4).
  destruct (LoadPlugins_outcome a filters config) as (P5 & P6).
  destruct (LoadOutputs_outcome a filters config) as (O5 & O6).
  split_and!; try done.
  - intros names Hn. destruct (P1 names Hn) as [-> Hps].
    split_and!; [done|..|done].
    + apply (sort_Strings_wanted filters _ "").
    + apply (sort_Strings_wanted filters _ "").
    + intros name. apply (sort_Strings_wanted filters _ name).
  - intros names Hn. destruct (O1 names Hn) as [-> Hos].
    split_and!; [done|..|done].
    + apply (sort_Strings_wanted filters _ "").
    + apply (sort_Strings_wanted filters _ "").
    + intros name. apply (sort_Strings_wanted filters _ name).
Qed.

(** C6, as stated, fails: of two declared names that no registry knows,
    only the first is named by the error. *)
Lemma LoadPlugins_names_first_absent_only :
  In "phantom" (PluginsDeclared two_unknown)
  ∧ Plugins two_unknown "phantom" = None
  ∧ (LoadPlugins (with_retries 2) [] two_unknown).1
    = inl "Undefined but requested plugin: ghost"
  ∧ (LoadPlugins (with_retries 2) [] two_unknown).1
    ≠ inl ("Undefined but requested plugin: " +:+ "phantom").
Proof. split_and!; [by right; left|done|done|done]. Qed.

(** A configuration block that does not apply: its error is returned, and
    the unregistered name declared after it is not reached. *)
Example LoadPlugins_bad_block :
  (LoadPlugins (with_retries 2) [] bad_block).1 = inl "cpu: bad block".
Proof. reflexivity. Qed.

(** A load that succeeds: a filter that lets two of three declared
    collectors through. *)
Example LoadPlugins_filtered :
  (LoadPlugins (with_retries 2) ["mem"; "cpu"]
     (declaring [] ["mem"; "cpu"; "disk"] ["cpu"; "mem"; "disk"])).1
  = inr ["cpu"; "mem"].
Proof. reflexivity. Qed.

(** * Further properties *)

(** ** The writer: pacing, outcome, shutdown *)

Lemma writeOutput_loop_sleeps fuel a points ro sd now retry tr ro' :
  writeOutput_loop fuel a points ro sd now retry = Some (tr, ro') →
  sleeps tr = replicate (attempts tr - 1) (EvSleep (FlushInterval a))
  ∧ (1 ≤ attempts tr)%nat.
Proof.
  revert ro now retry tr.
  induction fuel as [|fuel IH]; intros ro now retry tr H; [done|].
  apply writeOutput_loop_turn in H.
  destruct H as [(_ & -> & _)|[(_ & _ & _ & ->)|[(_ & _ & _ & _ & ->)|H]]];
    try (split; [done|cbn; lia]).
  destruct H as (_ & _ & e & tr' & _ & Hrec & ->).
  apply IH in Hrec as [Hs Hn].
  change (attempts (_ :: _ :: _ :: tr')) with (S (attempts tr')).
  change (sleeps (_ :: _ :: _ :: tr'))
    with (EvSleep (FlushInterval a) :: sleeps tr').
  rewrite Hs. split; [|lia].
  destruct (attempts tr') as [|n]; [lia|]. cbn. by rewrite Nat.sub_0_r.
Qed.

(** X1: Between two Write attempts of a writer lies exactly one sleep of the
    flush interval: a writer that made [n] attempts slept [n - 1] times,
    each time for [FlushInterval], and it made at least one attempt. *)
Theorem writeOutput_pacing (fuel : nat) (a : Agent) (points : list Point)
    (ro : runningOutput) (sd : shutdown_signal) (tr : trace)
    (ro' : runningOutput) :
  writeOutput fuel a points ro sd = Some (tr, ro') →
  (1 ≤ attempts tr)%nat
  ∧ sleeps tr = replicate (attempts tr - 1) (EvSleep (FlushInterval a)).
Proof.
  intros H. apply writeOutput_loop_sleeps in H as [Hs Hn]. done.
Qed.

Lemma writeOutput_pacing_witness :
  (1 ≤ 3)%nat
  ∧ sleeps (default [] (fst <$> writeOutput 3 (with_retries 2) [a_point]
                                  influx_failing None))
    = replicate 2 (EvSleep (10 * Second)).
Proof.
  destruct (writeOutput 3 (with_retries 2) [a_point] influx_failing None)
    as [[tr ro']|] eqn:Hrun; [|discriminate Hrun].
  pose proof (writeOutput_pacing _ _ _ _ _ _ _ Hrun) as [_ Hs].
  vm_compute in Hrun. injection Hrun as <- <-.
  split; [lia|exact Hs].
Defined.

Lemma writeOutput_loop_outcome fuel a points ro now retry tr ro' :
  writeOutput_loop fuel a points ro None now retry = Some (tr, ro') →
  (∃ pre,
     tr = pre ++ [EvWrite (ro_name ro) points None;
                  flushed_line (ro_name ro) (length points)]
     ∧ all_writes_failed pre)
  ∨ (all_writes_failed tr
     ∧ last tr = Some (fatal_line (ro_name ro) (int_add (FlushRetries a) 1)
                         (length points))).
Proof.
  revert ro now retry tr.
  induction fuel as [|fuel IH]; intros ro now retry tr H; [done|].
  apply writeOutput_loop_turn in H.
  destruct H as [(? & _)|[(_ & Hok & _ & ->)|[(_ & Hko & _ & _ & ->)|H]]].
  - done.
  - left. exists []. rewrite Hok. split; [done|]. by intros ??? [].
  - right. split; [|done]. intros name pts r [Hin|[Hin|[]]]; by simplify_eq.
  - destruct H as (_ & _ & e & tr' & He & Hrec & ->).
    apply IH in Hrec. cbn [ro_name] in Hrec. rewrite He.
    destruct Hrec as [(pre & -> & Hpre)|[Hall Hlast]].
    + left. eexists (_ :: _ :: _ :: pre). split; [done|].
      intros name pts r [Hin|[Hin|[Hin|Hin]]]; simplify_eq; eauto.
    + right. split.
      * intros name pts r [Hin|[Hin|[Hin|Hin]]]; simplify_eq; eauto.
      * destruct tr'; [done|exact Hlast].
Qed.

(** X2: When shutdown is never signalled, a writer ends in one of two ways,
    both logged: its last attempt succeeded, all earlier ones failed, and
    the Flushed line closes the trace; or every attempt failed and the
    FATAL line closes it. *)
Theorem writeOutput_delivers_or_drops (fuel : nat) (a : Agent)
    (points : list Point) (ro : runningOutput) (tr : trace)
    (ro' : runningOutput) :
  writeOutput fuel a points ro None = Some (tr, ro') →
  (∃ pre,
     tr = pre ++ [EvWrite (ro_name ro) points None;
                  flushed_line (ro_name ro) (length points)]
     ∧ all_writes_failed pre)
  ∨ (all_writes_failed tr
     ∧ last tr = Some (fatal_line (ro_name ro) (int_add (FlushRetries a) 1)
                         (length points))).
Proof. apply writeOutput_loop_outcome. Qed.

Lemma writeOutput_delivers_or_drops_witness :
  ∃ pre,
    default [] (fst <$> writeOutput 3 (with_retries 2) [a_point]
                          (flaky_sink 1) None)
    = pre ++ [EvWrite "influx" [a_point] None; flushed_line "influx" 1]
    ∧ all_writes_failed pre.
Proof.
  destruct (writeOutput 3 (with_retries 2) [a_point] (flaky_sink 1) None)
    as [[tr ro']|] eqn:Hrun; [|discriminate Hrun].
  destruct (writeOutput_delivers_or_drops _ _ _ _ _ _ Hrun)
    as [Hok|[Hall _]].
  - exact Hok.
  - exfalso. vm_compute in Hrun. injection Hrun as <- <-.
    eapply (Hall "influx" [a_point] None); [|reflexivity].
    do 3 right. left. reflexivity.
Defined.

Lemma writeOutput_loop_silent fuel a points ro k now retry tr ro' :
  writeOutput_loop fuel a points ro (Some k) now retry = Some (tr, ro') →
  (k < now + blocking_ops tr)%nat →
  ∃ r, last tr = Some (EvWrite (ro_name ro) points r).
Proof.
  revert ro now retry tr.
  induction fuel as [|fuel IH]; intros ro now retry tr H Hk; [done|].
  apply writeOutput_loop_turn in H.
  destruct H as [(_ & -> & _)|[(Hc & _ & _ & ->)|[(Hc & _ & _ & _ & ->)|H]]].
  - eauto.
  - unfold closed_after in Hc. apply Nat.ltb_ge in Hc.
    rewrite !blocking_ops_cons in Hk. cbn in Hk. lia.
  - unfold closed_after in Hc. apply Nat.ltb_ge in Hc.
    rewrite !blocking_ops_cons in Hk. cbn in Hk. lia.
  - destruct H as (_ & _ & e & tr' & _ & Hrec & ->).
    rewrite !blocking_ops_cons in Hk. cbn in Hk.
    apply IH in Hrec as [r Hr]; [|lia]. exists r.
    destruct tr'; [done|exact Hr].
Qed.

(** X3: A writer that is still running when shutdown is signalled ends on a
    Write attempt and logs nothing about it: whether that last attempt
    delivered the batch or lost it, neither the Flushed nor the FATAL line
    is written. *)
Theorem writeOutput_silent_on_shutdown (fuel : nat) (a : Agent)
    (points : list Point) (ro : runningOutput) (k : nat) (tr : trace)
    (ro' : runningOutput) :
  writeOutput fuel a points ro (Some k) = Some (tr, ro') →
  (k < blocking_ops tr)%nat →
  ∃ r, last tr = Some (EvWrite (ro_name ro) points r).
Proof. intros H Hk. by eapply writeOutput_loop_silent. Qed.

Lemma writeOutput_silent_on_shutdown_witness :
  ∃ r,
    last (default [] (fst <$> writeOutput 3 (with_retries 2) [a_point]
                                influx_failing (Some 0%nat)))
    = Some (EvWrite "influx" [a_point] r).
Proof.
  destruct (writeOutput 3 (with_retries 2) [a_point] influx_failing
              (Some 0%nat)) as [[tr ro']|] eqn:Hrun; [|discriminate Hrun].
  apply (writeOutput_silent_on_shutdown _ _ _ _ _ _ _ Hrun).
  vm_compute in Hrun. injection Hrun as <- <-. vm_compute. lia.
Defined.

Lemma writeOutput_loop_recovers n fuel a points ro now retry :
  (n < fuel)%nat →
  0 ≤ retry → retry + Z.of_nat n ≤ FlushRetries a → FlushRetries a ≤ max_int →
  (∀ i, (i < n)%nat → write_result (ro_output ro) points i ≠ None) →
  write_result (ro_output ro) points n = None →
  ∃ tr ro',
    writeOutput_loop fuel a points ro None now retry = Some (tr, ro')
    ∧ attempts tr = S n
    ∧ last tr = Some (flushed_line (ro_name ro) (length points)).
Proof.
  revert fuel ro now retry.
  induction n as [|n IH]; intros fuel ro now retry Hfuel H0 Hn Hmax Hfail Hok;
    (destruct fuel as [|fuel]; [lia|]); cbn [writeOutput_loop closed_after].
  - unfold write_result in Hok. cbn [after_writes] in Hok.
    destruct (Output_Write (ro_output ro) points) as [err out].
    cbn [fst] in Hok. subst err. by eexists _, _.
  - pose proof (Hfail 0%nat ltac:(lia)) as Hfirst.
    unfold write_result in Hfirst. cbn [after_writes] in Hfirst.
    destruct (Output_Write (ro_output ro) points) as [[e|] out] eqn:Hw;
      [|done].
    destruct (Z.leb_spec (FlushRetries a) retry) as [|_]; [lia|].
    rewrite int_add_small by (unfold min_int, max_int in *; lia).
    destruct (IH fuel (mkRunningOutput (ro_name ro) out) (S (S now))
                (retry + 1)) as (tr & ro' & -> & Hatt & Hlast); [lia..| | |].
    + intros i Hi. specialize (Hfail (S i) ltac:(lia)).
      unfold write_result in *. cbn [after_writes] in Hfail.
      by rewrite Hw in Hfail.
    + unfold write_result in *. cbn [after_writes] in Hok.
      by rewrite Hw in Hok.
    + cbn [ro_name] in *. eexists _, _. split; [done|].
      split; [by cbn; rewrite <-Hatt|].
      destruct tr; [done|exact Hlast].
Qed.

(** X4: A transient failure is survived: when the sink fails [n] Writes of the
    batch and accepts the next one, with [n <= FlushRetries] and no
    shutdown, the writer makes [n + 1] attempts and ends with the Flushed
    line. *)
Theorem writeOutput_recovers (n fuel : nat) (a : Agent) (points : list Point)
    (ro : runningOutput) :
  (n < fuel)%nat →
  Z.of_nat n ≤ FlushRetries a ≤ max_int →
  (∀ i, (i < n)%nat → write_result (ro_output ro) points i ≠ None) →
  write_result (ro_output ro) points n = None →
  ∃ tr ro',
    writeOutput fuel a points ro None = Some (tr, ro')
    ∧ attempts tr = S n
    ∧ last tr = Some (flushed_line (ro_name ro) (length points)).
Proof.
  intros Hfuel [Hn Hmax] Hfail Hok.
  apply writeOutput_loop_recovers; auto; lia.
Qed.

Lemma writeOutput_recovers_witness :
  ∃ tr ro',
    writeOutput 3 (with_retries 2) [a_point] (flaky_sink 2) None
      = Some (tr, ro')
    ∧ attempts tr = 3%nat
    ∧ last tr = Some (flushed_line "influx" 1).
Proof.
  apply (writeOutput_recovers 2 3 (with_retries 2) [a_point] (flaky_sink 2)).
  - lia.
  - unfold max_int. cbn. lia.
  - intros [|[|i]] Hi; [discriminate..|lia].
  - reflexivity.
Defined.

(** ** The flusher *)

Lemma batches_for_app name t1 t2 :
  batches_for name (t1 ++ t2) = batches_for name t1 ++ batches_for name t2.
Proof. apply omap_app. Qed.

(** A flush hands a non-empty batch once to every sink of that name. *)
Lemma batches_for_flush a points name :
  batches_for name (flush a points)
  = if (length points =? 0)%nat then []
    else replicate
           (length (List.filter (λ o, String.eqb (ro_name o) name) (outputs a)))
           points.
Proof.
  unfold flush. destruct (length points =? 0)%nat; [done|].
  induction (outputs a) as [|o os IH]; [done|].
  cbn. destruct (String.eqb (ro_name o) name); cbn; by rewrite <-IH.
Qed.

Lemma absent_name_count (os : list runningOutput) name :
  name ∉ ro_name <$> os →
  List.filter (λ o', String.eqb (ro_name o') name) os = [].
Proof.
  induction os as [|o' os IH]; [done|]. rewrite fmap_cons, not_elem_of_cons.
  intros [Hne Hnotin]. cbn [List.filter].
  destruct (String.eqb_spec (ro_name o') name) as [Heq|_]; [by subst|].
  by apply IH.
Qed.

Lemma unique_name_count (os : list runningOutput) o :
  NoDup (ro_name <$> os) → In o os →
  length (List.filter (λ o', String.eqb (ro_name o') (ro_name o)) os) = 1%nat.
Proof.
  induction os as [|o' os IH]; intros Hnd Hin; [done|].
  rewrite fmap_cons in Hnd. apply NoDup_cons in Hnd as [Hnotin Hnd].
  cbn [List.filter]. destruct Hin as [->|Hin].
  - rewrite String.eqb_refl. by rewrite absent_name_count.
  - destruct (String.eqb_spec (ro_name o') (ro_name o)) as [Heq|_].
    + exfalso. apply Hnotin. rewrite Heq.
      apply list_elem_of_fmap. exists o. split; [done|].
      by apply list_elem_of_In.
    + by apply IH.
Qed.

Lemma flusher_loop_conserves a points script o :
  NoDup (ro_name <$> outputs a) → In o (outputs a) →
  concat (batches_for (ro_name o) (flusher_loop a points script).1)
    ++ pending points script
  = points ++ received script.
Proof.
  intros Hnd Hin. revert points.
  induction script as [|c script IH]; intros points.
  { cbn. by rewrite app_nil_r. }
  assert (concat (batches_for (ro_name o) (flush a points)) = points) as Hfl.
  { rewrite batches_for_flush, unique_name_count by done.
    destruct points; cbn; by rewrite ?app_nil_r. }
  destruct c; cbn [flusher_loop received pending].
  - cbn [fst]. change (batches_for (ro_name o) (EvLogln _ :: flush a points))
      with (batches_for (ro_name o) (flush a points)).
    by rewrite Hfl.
  - specialize (IH []). destruct (flusher_loop a [] script) as [tr out].
    cbn [fst] in *. rewrite batches_for_app, concat_app, Hfl, <-app_assoc.
    by rewrite IH.
  - rewrite IH, <-app_assoc. done.
Qed.

(** X5: The flusher neither loses nor repeats a point: for a sink whose name is
    unique among the configured sinks, the batches handed to its writers,
    put end to end, followed by what is still buffered, are the points
    taken from the channel, in the order of arrival; after shutdown nothing
    is left in the buffer. *)
Theorem flusher_conserves_points (a : Agent) (script : list flusher_case)
    (o : runningOutput) :
  0 < FlushInterval a →
  NoDup (ro_name <$> outputs a) → In o (outputs a) →
  concat (batches_for (ro_name o) (flusher a script).1) ++ pending [] script
  = received script
  ∧ (flusher_shutdown script = true → pending [] script = []).
Proof.
  intros Hpos Hnd Hin. split.
  - unfold flusher, NewTicker_panics.
    destruct (Z.leb_spec (FlushInterval a) 0) as [|_]; [lia|].
    pose proof (flusher_loop_conserves a [] script o Hnd Hin) as H.
    destruct (flusher_loop a [] script) as [tr out]. exact H.
  - intros Hs. cut (∀ points, pending points script = []); [done|].
    induction script as [|[| |pt] script IH]; intros points; try done.
    + by apply IH.
    + by apply IH.
Qed.

Lemma flusher_conserves_points_witness :
  concat (batches_for "first"
            (flusher two_sinks [FlPoint a_point; FlTick; FlTick;
                                FlPoint a_point; FlShutdown]).1)
  = [a_point; a_point].
Proof.
  pose proof (flusher_conserves_points two_sinks
                [FlPoint a_point; FlTick; FlTick; FlPoint a_point; FlShutdown]
                (mkRunningOutput "first" (failing_output "cannot close")))
    as H.
  destruct H as [H _].
  - reflexivity.
  - cbn. apply NoDup_cons. split; [|apply NoDup_singleton].
    by intros ?%list_elem_of_singleton.
  - left. reflexivity.
  - cbn [pending app] in H. rewrite app_nil_r in H. exact H.
Defined.

Lemma flusher_loop_outcome a points script :
  (flusher_loop a points script).2
  = if flusher_shutdown script then Returned None else Waiting.
Proof.
  revert points. induction script as [|[| |pt] script IH]; intros points;
    cbn [flusher_loop]; try done.
  specialize (IH []). by destruct (flusher_loop a [] script).
Qed.

Lemma flusher_loop_after_shutdown a points before after :
  flusher_loop a points (before ++ FlShutdown :: after)
  = flusher_loop a points (before ++ [FlShutdown]).
Proof.
  revert points. induction before as [|[| |pt] before IH]; intros points;
    cbn [app flusher_loop]; try done.
  by rewrite IH.
Qed.

(** X6: The flusher ends on shutdown only, and then returns nil: it never
    returns an error (so the branch of [Run] that closes the shutdown
    channel after a flusher failure is never taken).  With a non-positive
    flush interval it panics in [time.NewTicker] before it flushes
    anything.  What the channels offer after shutdown plays no part. *)
Theorem flusher_ends_on_shutdown (a : Agent) (script after : list flusher_case) :
  (flusher a script).2
  = (if NewTicker_panics (FlushInterval a) then Panicked ticker_panic
     else if flusher_shutdown script then Returned None else Waiting)
  ∧ (NewTicker_panics (FlushInterval a) = true →
     writers_started (flusher a script).1 = [])
  ∧ flusher a (script ++ FlShutdown :: after)
    = flusher a (script ++ [FlShutdown]).
Proof.
  unfold flusher. split_and!.
  - destruct (NewTicker_panics _); [done|].
    pose proof (flusher_loop_outcome a [] script) as H.
    by destruct (flusher_loop a [] script).
  - by intros ->.
  - by rewrite flusher_loop_after_shutdown.
Qed.

(** ** Connect: how long startup can take *)

Lemma sleeps_app t1 t2 : sleeps (t1 ++ t2) = sleeps t1 ++ sleeps t2.
Proof. apply List.filter_app. Qed.

Lemma sleeps_io tr : sleeps (io tr) = sleeps tr.
Proof.
  induction tr as [|e tr IH]; [done|].
  unfold io, sleeps in *. cbn [List.filter].
  destruct e; cbn; by rewrite ?IH.
Qed.

Lemma connects_io tr :
  List.filter is_connect (io tr) = List.filter is_connect tr.
Proof.
  induction tr as [|e tr IH]; [done|].
  unfold io in *. cbn [List.filter].
  destruct e; cbn; by rewrite ?IH.
Qed.

Lemma connect_attempts_bounds o :
  (length (List.filter is_connect (connect_attempts o)) ≤ 2)%nat
  ∧ sleeps (connect_attempts o)
    = if needs_retry o then [EvSleep (15 * Second)] else [].
Proof.
  unfold connect_attempts, needs_retry.
  destruct (first_Connect o); cbn; split; lia || done.
Qed.

Lemma Connect_loop_bounds debug os :
  let tr := io (Connect_loop debug os).1.1 in
  (length (List.filter is_connect tr) ≤ 2 * length os)%nat
  ∧ (length (sleeps tr) ≤ length os)%nat
  ∧ sleeps tr = replicate (length (sleeps tr)) (EvSleep (15 * Second))
  ∧ ((Connect_loop debug os).1.2 = None →
     length (sleeps tr) = length (List.filter needs_retry os)).
Proof.
  induction os as [|o os IH]; [done|]. cbv zeta in *.
  pose proof (Connect_loop_cons debug o os) as Hc. cbv zeta in Hc.
  destruct (connect_attempts_bounds o) as [Hn Hs].
  destruct IH as (IH1 & IH2 & IH3 & IH4).
  assert (needs_retry o = match first_Connect o with
                          | Some _ => true | None => false end) as Hr by done.
  cbn [List.filter length].
  destruct (first_Connect o) as [e1|];
    [destruct (second_Connect o) as [e2|]|];
    destruct Hc as [Hres ->]; rewrite ?List.filter_app, ?sleeps_app,
      ?length_app, Hs, Hr, ?Hres; cbn [length app replicate];
    split_and!; try lia; try done.
  all: try (by rewrite IH3 at 1).
  all: try (intros H; by rewrite IH4).
Qed.

(** X7: [Connect] calls [Connect] at most twice per configured sink and sleeps
    at most once per sink, always for 15 seconds; when it returns nil it
    has slept exactly once for every sink whose first attempt failed. *)
Theorem Connect_delay (a : Agent) :
  let tr := (Connect a).1.1 in
  (length (List.filter is_connect tr) ≤ 2 * length (outputs a))%nat
  ∧ (length (sleeps tr) ≤ length (outputs a))%nat
  ∧ sleeps tr = replicate (length (sleeps tr)) (EvSleep (15 * Second))
  ∧ ((Connect a).1.2 = None →
     length (sleeps tr) = length (List.filter needs_retry (outputs a))).
Proof.
  pose proof (Connect_loop_bounds (Debug a) (outputs a)) as H. cbv zeta in *.
  rewrite sleeps_io, connects_io in H.
  unfold Connect. by destruct (Connect_loop (Debug a) (outputs a)) as [[??]?].
Qed.

(** ** Loading leaves its mark on the agent *)

Lemma LoadPlugins_loop_partial filters config before name after ps names :
  Forall (plugin_loads config filters) before →
  Plugins config name = None →
  rp_name <$> (LoadPlugins_loop filters config (before ++ name :: after)
                 ps names).2
  = (rp_name <$> ps) ++ wanted filters before.
Proof.
  intros Hall Habsent. revert ps names.
  induction Hall as [|first before Hfirst _ IH]; intros ps names.
  { cbn. by rewrite Habsent, app_nil_r. }
  cbn [app LoadPlugins_loop]. unfold plugin_loads in Hfirst.
  unfold wanted. cbn [List.filter]. fold (wanted filters before).
  destruct (Plugins config first) as [plugin|]; [|done].
  destruct (selected first filters); [|apply IH].
  destruct Hfirst as [pconfig Hp]; [done|].
  destruct (ApplyPlugin config first plugin) as [[err|pconfig'] plugin'];
    [done|].
  rewrite IH, fmap_app, <-app_assoc. done.
Qed.

Lemma LoadOutputs_loop_partial debug filters config before name after os names :
  Forall (output_loads config filters) before →
  Outputs config name = None →
  ro_name <$> (LoadOutputs_loop debug filters config (before ++ name :: after)
                 os names).2
  = (ro_name <$> os) ++ wanted filters before.
Proof.
  intros Hall Habsent. revert os names.
  induction Hall as [|first before Hfirst _ IH]; intros os names.
  { cbn. by rewrite Habsent, app_nil_r. }
  cbn [app LoadOutputs_loop]. unfold output_loads in Hfirst.
  unfold wanted. cbn [List.filter]. fold (wanted filters before).
  destruct (Outputs config first) as [output|]; [|done].
  destruct (selected first filters); [|apply IH].
  specialize (Hfirst eq_refl).
  destruct (ApplyOutput config first output) as [[err|] output']; [done|].
  specialize (IH (os ++ [mkRunningOutput first output']) (names ++ [first])).
  destruct (LoadOutputs_loop debug filters config _ _ _) as [[tr' res] os''].
  cbn [snd] in *. rewrite IH, fmap_app, <-app_assoc. done.
Qed.

(** X8: A failed load is not undone: when [LoadPlugins] stops at an
    unregistered name, the collectors selected before that name stay in
    the agent. *)
Theorem LoadPlugins_failure_keeps_loaded (a : Agent) (filters : list string)
    (config : Config) (before : list string) (name : string)
    (after : list string) :
  PluginsDeclared config = before ++ name :: after →
  Forall (plugin_loads config filters) before →
  Plugins config name = None →
  (LoadPlugins a filters config).1
  = inl ("Undefined but requested plugin: " +:+ name)
  ∧ rp_name <$> plugins (LoadPlugins a filters config).2
    = (rp_name <$> plugins a) ++ wanted filters before.
Proof.
  intros Hdecl Hall Habsent. split.
  - by eapply LoadPlugins_spec.
  - unfold LoadPlugins. rewrite Hdecl.
    pose proof (LoadPlugins_loop_partial filters config before name after
                  (plugins a) [] Hall Habsent) as H.
    by destruct (LoadPlugins_loop _ _ _ _ _) as [res ps].
Qed.

Lemma LoadPlugins_failure_keeps_loaded_witness :
  (LoadPlugins (with_retries 2) [] known_then_unknown).1
  = inl "Undefined but requested plugin: ghost"
  ∧ rp_name <$> plugins (LoadPlugins (with_retries 2) [] known_then_unknown).2
    = ["mem"].
Proof.
  apply (LoadPlugins_failure_keeps_loaded (with_retries 2) []
           known_then_unknown ["mem"] "ghost" ["cpu"]).
  - reflexivity.
  - repeat constructor. unfold plugin_loads. cbn. intros _. by eexists.
  - reflexivity.
Defined.

(** The same for the sinks of [LoadOutputs]. *)
Lemma LoadOutputs_failure_keeps_loaded (a : Agent) (filters : list string)
    (config : Config) (before : list string) (name : string)
    (after : list string) :
  OutputsDeclared config = before ++ name :: after →
  Forall (output_loads config filters) before →
  Outputs config name = None →
  ro_name <$> outputs (LoadOutputs a filters config).2
  = (ro_name <$> outputs a) ++ wanted filters before.
Proof.
  intros Hdecl Hall Habsent. unfold LoadOutputs. rewrite Hdecl.
  pose proof (LoadOutputs_loop_partial (Debug a) filters config before name
                after (outputs a) [] Hall Habsent) as H.
  by destruct (LoadOutputs_loop _ _ _ _ _ _) as [[tr res] os].
Qed.

(** X9: Loading is not idempotent on the agent: a second successful
    [LoadPlugins] of the same configuration returns the same names and
    appends every selected collector a second time. *)
Theorem LoadPlugins_twice_duplicates (a : Agent) (filters : list string)
    (config : Config) (names : list string) :
  (LoadPlugins a filters config).1 = inr names →
  (LoadPlugins (LoadPlugins a filters config).2 filters config).1 = inr names
  ∧ rp_name <$> plugins
      (LoadPlugins (LoadPlugins a filters config).2 filters config).2
    = (rp_name <$> plugins a) ++ wanted filters (PluginsDeclared config)
      ++ wanted filters (PluginsDeclared config).
Proof.
  intros Hn.
  destruct (LoadPlugins_spec a filters config) as (P1 & _ & _ & P4).
  destruct (P1 names Hn) as [_ Hps].
  destruct (LoadPlugins_spec (LoadPlugins a filters config).2 filters config)
    as (Q1 & _).
  rewrite <-P4 in Hn. split; [done|]. destruct (Q1 names Hn) as [_ ->].
  by rewrite Hps, <-app_assoc.
Qed.

Lemma LoadPlugins_twice_duplicates_witness :
  (LoadPlugins (LoadPlugins (with_retries 2) ["mem"]
                  (declaring [] ["mem"; "cpu"] ["mem"; "cpu"])).2
     ["mem"] (declaring [] ["mem"; "cpu"] ["mem"; "cpu"])).1 = inr ["mem"]
  ∧ rp_name <$> plugins
      (LoadPlugins (LoadPlugins (with_retries 2) ["mem"]
                      (declaring [] ["mem"; "cpu"] ["mem"; "cpu"])).2
         ["mem"] (declaring [] ["mem"; "cpu"] ["mem"; "cpu"])).2
    = ["mem"; "mem"].
Proof.
  apply (LoadPlugins_twice_duplicates (with_retries 2) ["mem"]
           (declaring [] ["mem"; "cpu"] ["mem"; "cpu"]) ["mem"]).
  reflexivity.
Defined.

(** The same for the sinks of [LoadOutputs]. *)
Lemma LoadOutputs_twice_duplicates (a : Agent) (filters : list string)
    (config : Config) (names : list string) :
  (LoadOutputs a filters config).1.2 = inr names →
  ro_name <$> outputs
    (LoadOutputs (LoadOutputs a filters config).2 filters config).2
  = (ro_name <$> outputs a) ++ wanted filters (OutputsDeclared config)
    ++ wanted filters (OutputsDeclared config).
Proof.
  intros Hn.
  destruct (LoadOutputs_spec a filters config) as (P1 & _ & _ & P4).
  destruct (P1 names Hn) as [_ Hps].
  destruct (LoadOutputs_spec (LoadOutputs a filters config).2 filters config)
    as (Q1 & _).
  rewrite <-P4 in Hn. destruct (Q1 names Hn) as [_ ->].
  by rewrite Hps, <-app_assoc.
Qed.

(** ** The order of the returned names *)

Lemma string_compare_lt_trans s1 s2 s3 :
  String.compare s1 s2 = Lt → String.compare s2 s3 = Lt →
  String.compare s1 s3 = Lt.
Proof.
  revert s2 s3. induction s1 as [|c1 s1 IH]; intros [|c2 s2] [|c3 s3];
    cbn; try done.
  destruct (Ascii.compare c1 c2) eqn:E12; [|clear IH|done];
    (destruct (Ascii.compare c2 c3) eqn:E23; [| |done]); intros H12 H23.
  - apply Ascii.compare_eq_iff in E12 as ->. rewrite E23. by eapply IH.
  - apply Ascii.compare_eq_iff in E12 as ->. by rewrite E23.
  - apply Ascii.compare_eq_iff in E23 as <-. by rewrite E12.
  - unfold Ascii.compare in *. rewrite N.compare_lt_iff in E12, E23.
    by rewrite (proj2 (N.compare_lt_iff _ _) (N.lt_trans _ _ _ E12 E23)).
Qed.

#[global] Instance string_le_trans : Transitive string_le.
Proof.
  intros s1 s2 s3. unfold string_le, String.leb.
  destruct (String.compare s1 s2) eqn:E12; [| |done].
  - apply String.compare_eq_iff in E12 as ->. done.
  - destruct (String.compare s2 s3) eqn:E23; [| |done]; intros _ _.
    + apply String.compare_eq_iff in E23 as <-. by rewrite E12.
    + by rewrite (string_compare_lt_trans _ _ _ E12 E23).
Qed.

#[global] Instance string_le_antisymm : AntiSymm (=) string_le.
Proof. intros s1 s2. apply String.leb_antisym. Qed.

(** [sort_Strings] returns the one sorted arrangement of its argument,
    whatever algorithm [sort.Strings] runs. *)
Lemma sort_Strings_unique (l sorted : list string) :
  Sorted string_le sorted → sorted ≡ₚ l → sorted = sort_Strings l.
Proof.
  intros Hs Hp. apply (Sorted_unique string_le); [done| |].
  - apply Sorted_merge_sort, _.
  - rewrite Hp. symmetry. apply merge_sort_Permutation.
Qed.

Lemma wanted_Permutation filters l1 l2 :
  l1 ≡ₚ l2 → wanted filters l1 ≡ₚ wanted filters l2.
Proof.
  unfold wanted. induction 1 as [|x l1 l2 _ IH|x y l|l1 l2 l3 _ IH1 _ IH2];
    cbn [List.filter].
  - done.
  - destruct (selected x filters); by rewrite IH.
  - destruct (selected x filters), (selected y filters); try done.
    apply perm_swap.
  - by rewrite IH1.
Qed.

(** X10: The names [LoadPlugins] returns do not depend on the order of the
    declaration: two configurations that declare the same names in
    different orders load, when both load, to the same list. *)
Theorem loaded_names_ignore_declaration_order (a1 a2 : Agent)
    (filters : list string) (c1 c2 : Config) (names1 names2 : list string) :
  PluginsDeclared c1 ≡ₚ PluginsDeclared c2 →
  (LoadPlugins a1 filters c1).1 = inr names1 →
  (LoadPlugins a2 filters c2).1 = inr names2 →
  names1 = names2.
Proof.
  intros Hp H1 H2.
  destruct (LoadPlugins_spec a1 filters c1) as (P1 & _).
  destruct (LoadPlugins_spec a2 filters c2) as (P2 & _).
  destruct (P1 _ H1) as [-> _]. destruct (P2 _ H2) as [-> _].
  apply sort_Strings_unique.
  - apply Sorted_merge_sort, _.
  - unfold sort_Strings. rewrite merge_sort_Permutation.
    by apply wanted_Permutation.
Qed.

Lemma loaded_names_ignore_declaration_order_witness :
  ["cpu"; "mem"] = ["cpu"; "mem"].
Proof.
  apply (loaded_names_ignore_declaration_order (with_retries 2) (with_retries 2)
           [] (declaring [] ["mem"; "cpu"] ["mem"; "cpu"])
           (declaring [] ["cpu"; "mem"] ["mem"; "cpu"])).
  - apply perm_swap.
  - reflexivity.
  - reflexivity.
Defined.

(** ** Test mode *)

Lemma handed_to_app t1 t2 : handed_to (t1 ++ t2) = handed_to t1 ++ handed_to t2.
Proof. apply omap_app. Qed.

Lemma last_app_r {A} (l1 l2 : list A) : l2 ≠ [] → last (l1 ++ l2) = last l2.
Proof.
  intros H. rewrite last_app. destruct (last l2) eqn:E; [done|].
  by apply last_None in E.
Qed.

(** The head lines Test prints before a [Gather] hold no effect that the
    observations count. *)
Lemma Test_head_silent (name : string) (interval : Duration) :
  let head :=
    EvPrint "* Plugin: %s, Collection 1\n" [AStr name]
    :: (if negb (interval =? 0)
        then [EvPrint "* Internal: %s\n" [ADur interval]] else []) in
  gathered head = [] ∧ sleeps head = [] ∧ handed_to head = []
  ∧ separate_started head = [].
Proof. cbv zeta. by destruct (negb (interval =? 0)). Qed.

(** One plugin of the loop of [Test]. *)
Lemma Test_loop_cons plugin rest :
  let r := Test_loop (plugin :: rest) in
  let r' := Test_loop rest in
  let acc := test_accumulator plugin in
  let g1 := Plugin_Gather (rp_plugin plugin) acc in
  let g2 := Plugin_Gather g1.2 acc in
  let name := rp_name plugin in
  match g1.1.2 with
  | Some e =>
    r.1.2 = Some e ∧ gathered r.1.1 = [name] ∧ sleeps r.1.1 = []
    ∧ handed_to r.1.1 = [(name, acc)]
    ∧ separate_started r.1.1 = []
    ∧ last r.1.1 = Some (EvGather name acc g1.1.1 (Some e))
  | None =>
    if String.eqb name "cpu" then
      match g2.1.2 with
      | Some e =>
        r.1.2 = Some e ∧ gathered r.1.1 = [name; name]
        ∧ sleeps r.1.1 = [EvSleep (500 * Millisecond)]
        ∧ handed_to r.1.1 = [(name, acc); (name, acc)]
        ∧ separate_started r.1.1 = []
        ∧ last r.1.1 = Some (EvGather name acc g2.1.1 (Some e))
      | None =>
        r.1.2 = r'.1.2 ∧ gathered r.1.1 = [name; name] ++ gathered r'.1.1
        ∧ sleeps r.1.1 = EvSleep (500 * Millisecond) :: sleeps r'.1.1
        ∧ handed_to r.1.1 = [(name, acc); (name, acc)] ++ handed_to r'.1.1
        ∧ separate_started r.1.1 = separate_started r'.1.1
        ∧ (r'.1.1 ≠ [] → last r.1.1 = last r'.1.1)
      end
    else
      r.1.2 = r'.1.2 ∧ gathered r.1.1 = name :: gathered r'.1.1
      ∧ sleeps r.1.1 = sleeps r'.1.1
      ∧ handed_to r.1.1 = (name, acc) :: handed_to r'.1.1
      ∧ separate_started r.1.1 = separate_started r'.1.1
      ∧ (r'.1.1 ≠ [] → last r.1.1 = last r'.1.1)
  end.
Proof.
  cbv zeta. cbn [Test_loop].
  destruct (Test_head_silent (rp_name plugin) (cp_Interval (rp_config plugin)))
    as (Hg & Hs & Hh & Hsp). cbv zeta in *.
  set (head := EvPrint _ _ :: _) in *.
  destruct (Plugin_Gather (rp_plugin plugin) (test_accumulator plugin))
    as [[pts [e|]] p]; cbn [fst snd].
  { rewrite separate_started_app, gathered_app, sleeps_app, handed_to_app,
      Hg, Hs, Hh, Hsp, last_snoc. done. }
  destruct (rp_name plugin =? "cpu")%string.
  - destruct (Plugin_Gather p (test_accumulator plugin)) as [[pts2 [e2|]] p2];
      cbn [fst snd].
    + rewrite !separate_started_app, !gathered_app, !sleeps_app, !handed_to_app,
        Hg, Hs, Hh, Hsp. split_and!; try done.
      by rewrite last_app_r.
    + destruct (Test_loop rest) as [[tr res] rest']. cbn [fst snd].
      rewrite !separate_started_app, !gathered_app, !sleeps_app, !handed_to_app,
        Hg, Hs, Hh, Hsp. split_and!; try done.
      intros Hne. rewrite !app_assoc. by apply last_app_r.
  - destruct (Test_loop rest) as [[tr res] rest']. cbn [fst snd].
    rewrite !separate_started_app, !gathered_app, !sleeps_app, !handed_to_app,
      Hg, Hs, Hh, Hsp. split_and!; try done.
    intros Hne. by apply last_app_r.
Qed.

(** When no [Gather] fails, the loop of [Test] gathers once from every
    plugin and twice from [cpu], whatever the plugin's interval. *)
Lemma Test_loop_nil ps :
  (Test_loop ps).1.2 = None →
  gathered (Test_loop ps).1.1 = concat (test_passes <$> ps)
  ∧ sleeps (Test_loop ps).1.1
    = replicate (length (List.filter (λ p, String.eqb (rp_name p) "cpu") ps))
        (EvSleep (500 * Millisecond))
  ∧ separate_started (Test_loop ps).1.1 = [].
Proof.
  induction ps as [|plugin rest IH]; [done|]. intros Hnil.
  pose proof (Test_loop_cons plugin rest) as Hc. cbv zeta in Hc.
  rewrite fmap_cons. cbn [concat List.filter]. unfold test_passes at 1.
  destruct (Plugin_Gather (rp_plugin plugin) (test_accumulator plugin)).1.2;
    [destruct Hc as (Hr & _); congruence|].
  destruct (rp_name plugin =? "cpu")%string.
  - destruct (Plugin_Gather _ _).1.2; [destruct Hc as (Hr & _); congruence|].
    destruct Hc as (Hr & Hg & Hs & _ & Hsp & _). rewrite Hr in Hnil.
    destruct (IH Hnil) as (IHg & IHs & IHsp).
    by rewrite Hg, Hs, Hsp, IHg, IHs.
  - destruct Hc as (Hr & Hg & Hs & _ & Hsp & _). rewrite Hr in Hnil.
    destruct (IH Hnil) as (IHg & IHs & IHsp).
    by rewrite Hg, Hs, Hsp, IHg, IHs.
Qed.


Lemma Test_loop_handed_to ps :
  Forall (λ na, acc_prefix na.2 = na.1 +:+ "_" ∧ acc_debug na.2 = true
                ∧ acc_defaultTags na.2 = ∅)
    (handed_to (Test_loop ps).1.1).
Proof.
  induction ps as [|plugin rest IH]; [constructor|].
  pose proof (Test_loop_cons plugin rest) as Hc. cbv zeta in Hc.
  destruct (Plugin_Gather (rp_plugin plugin) (test_accumulator plugin)).1.2.
  { destruct Hc as (_ & _ & _ & -> & _). by repeat constructor. }
  destruct (rp_name plugin =? "cpu")%string.
  - destruct (Plugin_Gather _ _).1.2.
    { destruct Hc as (_ & _ & _ & -> & _). by repeat constructor. }
    destruct Hc as (_ & _ & _ & -> & _). by repeat constructor.
  - destruct Hc as (_ & _ & _ & -> & _). by repeat constructor.
Qed.

(** X11: Test mode, when [Test] returns nil: each plugin is gathered once
    and the plugin called [cpu] twice, after a sleep of 500 ms, whatever
    interval the plugins have; no separate gatherer is started; the
    flusher is started first and the shutdown channel is closed last. *)
Theorem Test_gathers_each_once (a : Agent) :
  (Test a).1.2 = None →
  gathered (Test a).1.1 = concat (test_passes <$> plugins a)
  ∧ sleeps (Test a).1.1
    = replicate
        (length (List.filter (λ p, String.eqb (rp_name p) "cpu") (plugins a)))
        (EvSleep (500 * Millisecond))
  ∧ separate_started (Test a).1.1 = []
  ∧ head (Test a).1.1 = Some (EvGo TaskFlusher)
  ∧ last (Test a).1.1 = Some EvCloseShutdown.
Proof.
  unfold Test. pose proof (Test_loop_nil (plugins a)) as H.
  destruct (Test_loop (plugins a)) as [[tr err] ps]. cbn [fst snd] in *.
  intros ->. destruct H as (Hg & Hs & Hsp); [done|].
  rewrite gathered_cons, separate_started_cons, !gathered_app,
    !separate_started_app, Hg, Hsp.
  change (sleeps (EvGo TaskFlusher :: tr ++ [EvCloseShutdown]))
    with (sleeps (tr ++ [EvCloseShutdown])).
  rewrite sleeps_app, Hs, last_cons, last_snoc, !app_nil_r. done.
Qed.

Lemma Test_gathers_each_once_witness :
  gathered (Test with_cpu).1.1 = ["mem"; "cpu"; "cpu"; "net"]
  ∧ sleeps (Test with_cpu).1.1 = [EvSleep (500 * Millisecond)].
Proof.
  destruct (Test_gathers_each_once with_cpu) as (Hg & Hs & _).
  - reflexivity.
  - split; [exact Hg|exact Hs].
Defined.



(** ** The accumulators of the three modes *)

Lemma gatherParallel_loop_handed_to a ps counter :
  handed_to (gatherParallel_loop a ps counter).1.1
  = (λ p, (rp_name p, gather_accumulator a p)) <$> List.filter zero_interval ps.
Proof.
  revert counter. induction ps as [|plugin rest IH]; intros counter; [done|].
  cbn [gatherParallel_loop List.filter]. unfold zero_interval at 1.
  destruct (cp_Interval (rp_config plugin) =? 0); cbn [negb].
  - destruct (Plugin_Gather _ _) as [[pts err] p].
    specialize (IH (int_add counter 1)).
    destruct (gatherParallel_loop a rest _) as [[tr c] rest'].
    cbn [fst snd] in *.
    change (handed_to (EvGather ?n ?acc ?p ?e :: ?t))
      with ((n, acc) :: handed_to t).
    rewrite handed_to_app, IH. by destruct err.
  - specialize (IH counter).
    by destruct (gatherParallel_loop a rest _) as [[tr c] rest'].
Qed.

Lemma gatherSeparate_loop_handed_to a plugin script :
  handed_to (gatherSeparate_loop a plugin script).1.1
  = replicate (S (leading_ticks script))
      (rp_name plugin, gather_accumulator a plugin).
Proof.
  revert plugin. induction script as [|c script IH]; intros plugin;
    cbn [gatherSeparate_loop]; unfold gatherSeparate_turn;
    destruct (Plugin_Gather _ _) as [[pts err] p]; cbn [fst snd].
  - change (handed_to (EvGather ?n ?acc ?p ?e :: ?t))
      with ((n, acc) :: handed_to t).
    rewrite handed_to_app. by destruct err.
  - destruct c; cbn [fst snd].
    + change (handed_to (EvGather ?n ?acc ?p ?e :: ?t))
        with ((n, acc) :: handed_to t).
      rewrite handed_to_app. by destruct err.
    + specialize (IH (mkRunningPlugin (rp_name plugin) p (rp_config plugin))).
      destruct (gatherSeparate_loop a _ script) as [[tr' out] plugin''].
      cbn [fst snd] in *.
      change (handed_to (EvGather ?n ?acc ?p ?e :: ?t))
        with ((n, acc) :: handed_to t).
      rewrite !handed_to_app, IH. by destruct err.
Qed.

(** X13: Every accumulator a collector is handed carries the prefix made of the
    collector's name and an underscore.  In parallel and in separate mode
    its debug flag is the agent's and its default tags are the agent's
    tags; in Test mode the debug flag is always set and there are no
    default tags. *)
Theorem accumulators_by_mode (a : Agent) (plugin : runningPlugin)
    (script : list select_case) :
  Forall (λ na, acc_prefix na.2 = na.1 +:+ "_" ∧ acc_debug na.2 = Debug a
                ∧ acc_defaultTags na.2 = Tags a)
    (handed_to (gatherParallel a).1.1)
  ∧ Forall (λ na, acc_prefix na.2 = na.1 +:+ "_" ∧ acc_debug na.2 = Debug a
                  ∧ acc_defaultTags na.2 = Tags a)
      (handed_to (gatherSeparate a plugin script).1.1)
  ∧ Forall (λ na, acc_prefix na.2 = na.1 +:+ "_" ∧ acc_debug na.2 = true
                  ∧ acc_defaultTags na.2 = ∅)
      (handed_to (Test a).1.1).
Proof.
  split_and!.
  - unfold gatherParallel.
    pose proof (gatherParallel_loop_handed_to a (plugins a) 0) as H.
    destruct (gatherParallel_loop a (plugins a) 0) as [[tr c] ps].
    cbn [fst snd] in *. rewrite handed_to_app, H, app_nil_r.
    apply Forall_fmap, Forall_forall. by intros p _.
  - unfold gatherSeparate. destruct (NewTicker_panics _); [constructor|].
    rewrite gatherSeparate_loop_handed_to. by apply Forall_replicate.
  - unfold Test. pose proof (Test_loop_handed_to (plugins a)) as H.
    destruct (Test_loop (plugins a)) as [[tr err] ps]. cbn [fst snd] in *.
    change (handed_to (EvGo TaskFlusher :: tr ++ [EvCloseShutdown]))
      with (handed_to (tr ++ [EvCloseShutdown])).
    by rewrite handed_to_app, app_nil_r.
Qed.

(** ** The tick line of parallel mode *)

Lemma gatherParallel_loop_counter a ps counter :
  0 ≤ counter → counter + Z.of_nat (length ps) ≤ max_int →
  (gatherParallel_loop a ps counter).1.2
  = counter + Z.of_nat (length (parallel_names ps)).
Proof.
  revert counter. induction ps as [|plugin rest IH]; intros counter H0 Hmax.
  { cbn. lia. }
  cbn [length] in Hmax.
  gatherParallel_turn a plugin rest counter IH.
  - rewrite IH; rewrite int_add_small;
      unfold min_int, max_int in *; cbn [length]; lia.
  - rewrite IH; lia.
Qed.

(** X14: The line that closes a tick of parallel mode reports the global
    interval and the number of plugins gathered in that tick. *)
Theorem gatherParallel_reports_count (a : Agent) :
  Z.of_nat (length (plugins a)) ≤ max_int →
  last (gatherParallel a).1.1
  = Some (gathered_line a (Z.of_nat (length (gathered (gatherParallel a).1.1)))).
Proof.
  intros Hmax. rewrite gatherParallel_gathered. unfold gatherParallel.
  pose proof (gatherParallel_loop_counter a (plugins a) 0) as H.
  destruct (gatherParallel_loop a (plugins a) 0) as [[tr c] ps].
  cbn [fst snd] in *. rewrite last_snoc, H by lia. done.
Qed.

Lemma gatherParallel_reports_count_witness :
  last (gatherParallel three_plugins).1.1 = Some (gathered_line three_plugins 2).
Proof.
  apply (gatherParallel_reports_count three_plugins).
  unfold max_int. cbn. lia.
Defined.

(** ** Run and its services *)

Lemma started_app t1 t2 : started (t1 ++ t2) = started t1 ++ started t2.
Proof. apply omap_app. Qed.

Lemma stopped_app t1 t2 : stopped (t1 ++ t2) = stopped t1 ++ stopped t2.
Proof. apply omap_app. Qed.

Lemma stopped_stops names : stopped (EvStop <$> names) = names.
Proof. induction names as [|n names IH]; [done|]. cbn. by f_equal. Qed.

Lemma started_stops names : started (EvStop <$> names) = [].
Proof. induction names as [|n names IH]; [done|]. exact IH. Qed.

Lemma gathered_stops names : gathered (EvStop <$> names) = [].
Proof. induction names as [|n names IH]; [done|]. exact IH. Qed.

(** A trace of gathering starts and stops no service and waits for no
    task. *)
Lemma gather_events_quiet tr :
  forallb gather_event tr = true →
  started tr = [] ∧ stopped tr = [] ∧ ¬ In EvWait tr.
Proof.
  induction tr as [|e tr IH].
  { intros _. split_and!; [done..|]. by intros []. }
  cbn [forallb]. rewrite andb_true_iff. intros [He Htr].
  destruct (IH Htr) as (IH1 & IH2 & IH3).
  destruct e; try done; cbn; split_and!; try done; by intros [|].
Qed.

Lemma gatherParallel_loop_events a ps counter :
  forallb gather_event (gatherParallel_loop a ps counter).1.1 = true.
Proof.
  revert counter. induction ps as [|plugin rest IH]; intros counter; [done|].
  gatherParallel_turn a plugin rest counter IH; [|done].
  cbn. rewrite forallb_app, IH. by destruct o.
Qed.

Lemma Run_loop_events a script :
  forallb gather_event (Run_loop a script).1.1 = true.
Proof.
  revert a. induction script as [|c script IH]; intros a; cbn [Run_loop];
    assert (forallb gather_event (gatherParallel a).1.1 = true
            ∧ (gatherParallel a).1.2 = None) as [Hg He]
      by (split; [|apply gatherParallel_nil]; unfold gatherParallel;
          pose proof (gatherParallel_loop_events a (plugins a) 0);
          destruct (gatherParallel_loop a (plugins a) 0) as [[??]?];
          cbn [fst snd] in *; rewrite forallb_app; by apply andb_true_iff);
    destruct (gatherParallel a) as [[tr err] a']; cbn [fst snd] in *;
    subst err; rewrite app_nil_r.
  - done.
  - destruct c; [done|]. specialize (IH a').
    destruct (Run_loop a' script) as [[tr' out] a'']. cbn [fst snd] in *.
    rewrite forallb_app. by apply andb_true_iff.
Qed.

(** The first loop of [Run]: every started service has its [Stop]
    deferred, the latest first; nothing is gathered or stopped yet; an
    error is that of a [Start]. *)
Lemma Run_start_deferred ps deferred :
  let r := Run_start ps deferred in
  r.1.2 = (EvStop <$> reverse (started r.1.1.1)) ++ deferred
  ∧ stopped r.1.1.1 = []
  ∧ gathered r.1.1.1 = []
  ∧ ¬ In EvWait r.1.1.1
  ∧ (∀ e, r.1.1.2 = Some e → ∃ name, In (EvStart name (Some e)) r.1.1.1).
Proof.
  revert deferred. induction ps as [|plugin rest IH]; intros deferred.
  { cbn. split_and!; try done. by intros []. }
  cbv zeta. cbn [Run_start].
  set (spawn := if negb (cp_Interval (rp_config plugin) =? 0)
                then [EvGo (TaskGatherSeparate (rp_name plugin))] else []).
  assert (started spawn = [] ∧ stopped spawn = [] ∧ gathered spawn = []
          ∧ ¬ In EvWait spawn) as (Hs1 & Hs2 & Hs3 & Hs4).
  { subst spawn. destruct (negb _); split_and!; try done; cbn;
      first [tauto|by intros [?|[]]]. }
  destruct (pl_Start (rp_plugin plugin)) as [start|].
  - destruct (start (pl_cur (rp_plugin plugin))) as [[e|] s]; cbn [fst snd].
    + split_and!; try done.
      * by intros [|[|]].
      * intros e' [= <-]. exists (rp_name plugin). by left.
    + destruct (IH (EvStop (rp_name plugin) :: deferred))
        as (IH1 & IH2 & IH3 & IH4 & IH5).
      destruct (Run_start rest _) as [[[tr err] deferred'] rest'].
      cbn [fst snd] in *.
      change (started (EvStart ?n None :: ?t)) with (n :: started t).
      change (stopped (EvStart ?n None :: ?t)) with (stopped t).
      change (gathered (EvStart ?n None :: ?t)) with (gathered t).
      rewrite started_app, stopped_app, gathered_app, Hs1, Hs2, Hs3, IH1, IH2,
        IH3, reverse_cons, fmap_app, <-app_assoc.
      split_and!; try done.
      * intros [|Hin]; [done|]. apply in_app_or in Hin as [|]; auto.
      * intros e He. destruct (IH5 e He) as [name Hin]. exists name.
        right. apply in_or_app. by right.
  - destruct (IH deferred) as (IH1 & IH2 & IH3 & IH4 & IH5).
    destruct (Run_start rest _) as [[[tr err] deferred'] rest'].
    cbn [fst snd] in *.
    rewrite started_app, stopped_app, gathered_app, Hs1, Hs2, Hs3, IH1, IH2, IH3.
    split_and!; try done.
    + intros Hin. apply in_app_or in Hin as [|]; auto.
    + intros e He. destruct (IH5 e He) as [name Hin]. exists name.
      apply in_or_app. by right.
Qed.

(** X15: Whenever [Run] ends, by shutdown, by a service that does not start
    or by the panic of [time.NewTicker], it has stopped exactly the
    services it had started, in the reverse order of their start.  When it
    returns an error, that error is the one of a [Start]; [Run] has then
    never run parallel mode, and it returns without waiting for the tasks
    it has started: the flusher, and the separate gatherers of the plugins
    listed before the failing service, are left to themselves. *)
Theorem Run_stops_started_services (a : Agent) (script : list select_case) :
  let tr := (Run a script).1.1 in
  stopped tr
  = (if (Run a script).1.2 is Waiting then [] else reverse (started tr))
  ∧ (∀ e, (Run a script).1.2 = Returned (Some e) →
       gathered tr = [] ∧ ¬ In EvWait tr
       ∧ head tr = Some (EvGo TaskFlusher)
       ∧ ∃ name, In (EvStart name (Some e)) tr).
Proof.
  cbv zeta. unfold Run.
  destruct (Run_start_deferred (plugins a) [])
    as (Hd & Hst & Hg & Hw & He). cbv zeta in *.
  destruct (Run_start (plugins a) []) as [[[tr0 err] deferred] ps].
  cbn [fst snd] in *. rewrite app_nil_r in Hd. subst deferred.
  destruct err as [e|].
  - cbn [fst snd].
    change (stopped (EvGo TaskFlusher :: ?t)) with (stopped t).
    change (started (EvGo TaskFlusher :: ?t)) with (started t).
    change (gathered (EvGo TaskFlusher :: ?t)) with (gathered t).
    rewrite stopped_app, started_app, gathered_app, stopped_stops,
      started_stops, gathered_stops, Hst, Hg, app_nil_r.
    split; [done|]. intros e' [= <-]. split_and!; [done| |done|].
    + intros [|Hin]; [done|]. apply in_app_or in Hin as [|Hin]; [auto|].
      apply list_elem_of_In, list_elem_of_fmap in Hin as (? & ? & _). done.
    + destruct (He e eq_refl) as [name Hin]. exists name.
      right. apply in_or_app. by left.
  - destruct (NewTicker_panics (Interval (set_plugins ps a))).
    + cbn [fst snd].
      change (stopped (EvGo TaskFlusher :: ?t)) with (stopped t).
      change (started (EvGo TaskFlusher :: ?t)) with (started t).
      rewrite stopped_app, started_app.
      change (stopped (EvWait :: ?t)) with (stopped t).
      change (started (EvWait :: ?t)) with (started t).
      rewrite stopped_stops, started_stops, Hst, app_nil_r. done.
    + destruct (Run_loop_spec (set_plugins ps a) script) as (Ho & _).
      pose proof (Run_loop_events (set_plugins ps a) script) as Hev.
      destruct (Run_loop (set_plugins ps a) script) as [[tr out] a'].
      cbn [fst snd] in *.
      destruct (gather_events_quiet tr Hev) as (Hq1 & Hq2 & _).
      change (stopped (EvGo TaskFlusher :: ?t)) with (stopped t).
      change (started (EvGo TaskFlusher :: ?t)) with (started t).
      rewrite !stopped_app, !started_app, Hst, Hq1, Hq2.
      destruct (has_shutdown script); subst out.
      * change (stopped (EvWait :: ?t)) with (stopped t).
        change (started (EvWait :: ?t)) with (started t).
        rewrite stopped_stops, started_stops, !app_nil_r. done.
      * by rewrite !app_nil_r.
Qed.

(** ** NewAgent: when it fails *)

(** X16: [NewAgent] fails in two cases only: the configuration does not apply,
    and then the OS hostname is not asked for; or the configuration leaves
    the hostname empty and the OS cannot tell it.  The error is the one of
    the failing step.  On success the agent is the configured one but for
    [Hostname] and the tag [host]. *)
Theorem NewAgent_errors (config : Config) (os_Hostname : error + string) :
  let applied := ApplyAgent config default_Agent in
  (∀ e, (NewAgent config os_Hostname).2 = inl e
        ↔ applied.1 = Some e
          ∨ (applied.1 = None ∧ Hostname applied.2 = "" ∧ os_Hostname = inl e))
  ∧ (applied.1 ≠ None → (NewAgent config os_Hostname).1 = [])
  ∧ (∀ agent, (NewAgent config os_Hostname).2 = inr agent →
       Interval agent = Interval applied.2
       ∧ FlushInterval agent = FlushInterval applied.2
       ∧ FlushRetries agent = FlushRetries applied.2
       ∧ Debug agent = Debug applied.2
       ∧ Precision agent = Precision applied.2
       ∧ UTC agent = UTC applied.2
       ∧ outputs agent = outputs applied.2
       ∧ plugins agent = plugins applied.2).
Proof.
  cbv zeta. unfold NewAgent.
  destruct (ApplyAgent config default_Agent) as [[err|] applied];
    cbn [fst snd].
  { split_and!; [|done|done]. intros e. split; [intros [= ->]; by left|].
    intros [[= ->]|[? _]]; done. }
  destruct (String.eqb_spec (Hostname applied) "") as [Hempty|Hset].
  - destruct os_Hostname as [err|hostname]; cbn [fst snd].
    + split_and!; [|done|done]. intros e. split; [intros [= ->]; by right|].
      intros [|(_ & _ & [= ->])]; done.
    + split_and!; [|done|by intros agent [= <-]].
      intros e. split; [done|]. intros [|(_ & _ & ?)]; done.
  - cbn [fst snd]. split_and!; [|done|by intros agent [= <-]].
    intros e. split; [done|]. intros [|(_ & ? & _)]; done.
Qed.

(** A service that does not start: the two services started before it are
    stopped, the latest first, and nothing is gathered. *)
Example Run_three_services :
  io (Run three_services [SelTick; SelShutdown]).1.1
  = [EvGo TaskFlusher; EvStart "statsd" None; EvStart "kafka" None;
     EvStart "mqtt" (Some "port in use"); EvStop "kafka"; EvStop "statsd"]
  ∧ (Run three_services [SelTick; SelShutdown]).1.2
    = Returned (Some "port in use").
Proof. split; reflexivity. Qed.

(** X17: With a global interval that is not positive, [Run] starts the services
    and the separate gatherers and then panics in [time.NewTicker]: parallel
    mode never runs. *)
Theorem Run_panics_without_interval (a : Agent) (script : list select_case) :
  Interval a ≤ 0 →
  Forall starts (plugins a) →
  (Run a script).1.2 = Panicked ticker_panic
  ∧ gathered (Run a script).1.1 = []
  ∧ separate_started (Run a script).1.1 = separate_names (plugins a).
Proof.
  intros Hint Hstart. unfold Run.
  destruct (Run_start_spec (plugins a) [] Hstart)
    as (He & Hs & Hg & Hp & Hd & Hd').
  destruct (Run_start (plugins a) []) as [[[tr0 err] deferred] ps].
  cbn [fst snd] in *. subst err.
  unfold NewTicker_panics. cbn [Interval set_plugins].
  destruct (Z.leb_spec (Interval a) 0) as [_|]; [|lia].
  cbn [fst snd].
  change (gathered (EvGo TaskFlusher :: ?t)) with (gathered t).
  change (separate_started (EvGo TaskFlusher :: ?t)) with (separate_started t).
  rewrite gathered_app, separate_started_app.
  change (gathered (EvWait :: ?t)) with (gathered t).
  change (separate_started (EvWait :: ?t)) with (separate_started t).
  rewrite Hg, Hs, Hd, Hd'. cbn. by rewrite app_nil_r.
Qed.

Lemma Run_panics_without_interval_witness :
  (Run zero_interval_agent [SelTick]).1.2 = Panicked ticker_panic
  ∧ gathered (Run zero_interval_agent [SelTick]).1.1 = []
  ∧ separate_started (Run zero_interval_agent [SelTick]).1.1 = ["net"].
Proof.
  apply (Run_panics_without_interval zero_interval_agent [SelTick]).
  - cbn. lia.
  - repeat constructor.
Defined.

(** A service that does not start after a separate gatherer was started:
    [Run] returns the error; the gatherer's task has been started and is
    not waited for. *)
Example Run_leaves_gatherer :
  io (Run gatherer_then_failing [SelTick; SelShutdown]).1.1
  = [EvGo TaskFlusher; EvGo (TaskGatherSeparate "net");
     EvStart "mqtt" (Some "port in use")]
  ∧ (Run gatherer_then_failing [SelTick; SelShutdown]).1.2
    = Returned (Some "port in use").
Proof. split; reflexivity. Qed.
